(** * Inverted pendulum on a cart and its PID controller

    A shallow embedding of [src/lib/InvertedPendulum.ts] (the enhanced
    [InvertedPendulum] and [PIDController] classes).
    Further modules embed the basic variants of the two classes, the
    simulation loop of [src/pages/index.tsx] and the coordinate
    computations of the two canvas components.

    Numbers.  The code is embedded twice.  In the first embedding a
    JavaScript [number] is a real number: every arithmetic operation is
    exact, and there is no NaN and no infinity.  [Math.max], [Math.min],
    [Math.abs], [Math.sin], [Math.cos] and [Math.PI] are [Rmax], [Rmin],
    [Rabs], [sin], [cos] and [PI].  In the second embedding (modules [Js],
    [JsPendulum] and [JsPID]) a [number] is a real number, [Infinity],
    [-Infinity] or [NaN], the comparisons and [Math.max], [Math.min],
    [Math.abs], [Math.sign] treat [NaN] as the language does, and the
    rounded operations are parameters.  A theorem of the second embedding
    holds for every arithmetic that obeys the laws it names, whatever the
    rounding and the overflow.

    Objects.  A class instance is a record of its fields; a method that
    mutates [this] is a function from the record before the call to the
    record after it (paired with the returned value when there is one).
    An optional argument is an [option], [None] standing for the omitted
    argument and its default.

    Loops.  On real numbers the two [while] loops of [normalizeAngle]
    are defined by well-founded recursion on the number of [2 * PI] shifts
    that remain, so [normalizeAngle], [update] and [calculate] are total
    functions.  In the second embedding the loops take a bound on their
    iterations and return [None] when it is exhausted. *)

From Stdlib Require Import Reals Lra Lia ZArith List Bool.
From Equations Require Import Equations.
Import ListNotations.

Open Scope R_scope.

(** ** Numeric helpers *)

(** [Math.sign] on the reals: 1, -1 or 0. *)
Definition sign (x : R) : R :=
  if Rlt_dec 0 x then 1 else if Rlt_dec x 0 then -1 else 0.

(** Number of [2 * PI] shifts left before [angle] is at most [PI]. *)
Definition turns_above (angle : R) : nat :=
  Z.to_nat (up ((angle - PI) / (2 * PI))).

(** Number of [2 * PI] shifts left before [angle] is at least [- PI]. *)
Definition turns_below (angle : R) : nat :=
  Z.to_nat (up ((- PI - angle) / (2 * PI))).

(** One shift of [2 * PI] lowers the count of shifts that are left by
    one: with [q] the quotient before the shift, [up (q - 1) = up q - 1]
    and [0 < up q]. *)
Ltac one_turn_less q :=
  pose proof PI_RGT_0;
  match goal with
  | |- (Z.to_nat (up ?shifted) < _)%nat =>
      replace shifted with (q - 1) by (field; lra)
  end;
  assert (0 < q) by (apply Rdiv_lt_0_compat; lra);
  destruct (archimed q);
  assert (up (q - 1) = (up q - 1)%Z)
    by (symmetry; apply tech_up; rewrite minus_IZR; lra);
  assert (0 < up q)%Z by (apply lt_IZR; lra);
  lia.

(** [while (angle > Math.PI) angle -= 2 * Math.PI;] *)
Equations wrap_down (angle : R) : R by wf (turns_above angle) lt :=
  wrap_down angle with Rgt_dec angle PI := {
    | left _ := wrap_down (angle - 2 * PI)
    | right _ := angle }.
Next Obligation.
  unfold turns_above. one_turn_less ((angle - PI) / (2 * PI)).
Qed.

(** [while (angle < -Math.PI) angle += 2 * Math.PI;] *)
Equations wrap_up (angle : R) : R by wf (turns_below angle) lt :=
  wrap_up angle with Rlt_dec angle (- PI) := {
    | left _ := wrap_up (angle + 2 * PI)
    | right _ := angle }.
Next Obligation.
  unfold turns_below. one_turn_less ((- PI - angle) / (2 * PI)).
Qed.

(** [normalizeAngle]: the same private method in both classes. *)
Definition normalizeAngle (angle : R) : R := wrap_up (wrap_down angle).

(** ** class InvertedPendulum *)

Module InvertedPendulum.

(** The fields of an instance: physical parameters, state variables and
    the failure flag.  The [readonly] fields are the constants below. *)
Record t : Type := mk {
  massCart : R;
  massPendulum : R;
  length : R;
  gravity : R;
  friction : R;
  airResistance : R;
  cartPosition : R;
  cartVelocity : R;
  pendulumAngle : R;
  pendulumAngularVelocity : R;
  hasFailed : bool
}.

Definition maxCartPosition : R := 5.0.
Definition maxCartVelocity : R := 10.0.
Definition maxAngularVelocity : R := 20.0.
Definition failureAngleThreshold : R := PI / 3.

(** [constructor(massCart = 1.0, massPendulum = 0.1, length = 1.0,
    initialAngle = 0.1)]; an omitted argument is [None]. *)
Definition new (massCart massPendulum length initialAngle : option R) : t :=
  {| massCart := match massCart with Some m => m | None => 1.0 end;
     massPendulum := match massPendulum with Some m => m | None => 0.1 end;
     length := match length with Some l => l | None => 1.0 end;
     gravity := 9.81;
     friction := 0.1;
     airResistance := 0.01;
     cartPosition := 0;
     cartVelocity := 0;
     pendulumAngle := match initialAngle with Some a => a | None => 0.1 end;
     pendulumAngularVelocity := 0;
     hasFailed := false |}.

(** The value returned by [derivative]. *)
Record deriv : Type := mkDeriv {
  dx : R;
  dv : R;
  dtheta : R;
  domega : R
}.

(** The locals of [derivative]: the state at which the equations of
    motion are evaluated, [this.field + (k ? k.field * dt : 0)]. *)
Definition stage (cur : R) (dt : R) (k : option deriv) (f : deriv -> R) : R :=
  cur + match k with Some k => f k * dt | None => 0 end.

Definition denominator (s : t) (theta : R) : R :=
  let cosTheta := cos theta in
  let totalMass := massCart s + massPendulum s in
  totalMass - massPendulum s * cosTheta * cosTheta.

(** The two accelerations of the regular branch of [derivative]. *)
Definition cartAccel (s : t) (force v theta omega : R) : R :=
  let sinTheta := sin theta in
  let cosTheta := cos theta in
  let frictionForce := friction s * v + 0.01 * v * Rabs v in
  (force - frictionForce
   + massPendulum s * length s * omega * omega * sinTheta
   - massPendulum s * gravity s * sinTheta * cosTheta) / denominator s theta.

Definition angularAccel (s : t) (force v theta omega : R) : R :=
  let sinTheta := sin theta in
  let cosTheta := cos theta in
  let totalMass := massCart s + massPendulum s in
  let frictionForce := friction s * v + 0.01 * v * Rabs v in
  let angularDamping := airResistance s * omega + 0.001 * omega * Rabs omega in
  (force * cosTheta - frictionForce * cosTheta
   + totalMass * gravity s * sinTheta
   + massPendulum s * length s * omega * omega * sinTheta * cosTheta
   - angularDamping * length s) / (length s * denominator s theta).

(** [derivative(force, dt = 0, k?)].  The local [x] of the source is
    computed and never read; it is left out. *)
Definition derivative (s : t) (force dt : R) (k : option deriv) : deriv :=
  let v := stage (cartVelocity s) dt k dv in
  let theta := stage (pendulumAngle s) dt k dtheta in
  let omega := stage (pendulumAngularVelocity s) dt k domega in
  if Rlt_dec (Rabs (denominator s theta)) 0.001 then
    {| dx := v; dv := 0; dtheta := omega; domega := 0 |}
  else
    {| dx := v;
       dv := cartAccel s force v theta omega;
       dtheta := omega;
       domega := angularAccel s force v theta omega |}.

(** *** The phases of [update], in source order *)

(** [force = Math.max(-maxForce, Math.min(maxForce, force))]. *)
Definition clampForce (force : R) : R :=
  let maxForce := 50.0 in
  Rmax (- maxForce) (Rmin maxForce force).

(** [dt = Math.min(dt, 0.02)]. *)
Definition clampDt (dt : R) : R := Rmin dt 0.02.

(** [if (Math.abs(this.pendulumAngle) > this.failureAngleThreshold)
    this.hasFailed = true]. *)
Definition checkFailure (s : t) : t :=
  if Rgt_dec (Rabs (pendulumAngle s)) failureAngleThreshold then
    mk (massCart s) (massPendulum s) (length s) (gravity s) (friction s)
       (airResistance s) (cartPosition s) (cartVelocity s)
       (pendulumAngle s) (pendulumAngularVelocity s) true
  else s.

(** The four RK4 slopes and the weighted state update. *)
Definition integrate (s : t) (force dt : R) : t :=
  let k1 := derivative s force 0 None in
  let k2 := derivative s force (dt / 2) (Some k1) in
  let k3 := derivative s force (dt / 2) (Some k2) in
  let k4 := derivative s force dt (Some k3) in
  let rk (f : deriv -> R) := (dt / 6) * (f k1 + 2 * f k2 + 2 * f k3 + f k4) in
  mk (massCart s) (massPendulum s) (length s) (gravity s) (friction s)
     (airResistance s)
     (cartPosition s + rk dx)
     (cartVelocity s + rk dv)
     (pendulumAngle s + rk dtheta)
     (pendulumAngularVelocity s + rk domega)
     (hasFailed s).

(** Soft limiting of both velocities. *)
Definition limitVelocities (s : t) : t :=
  let v :=
    if Rgt_dec (Rabs (cartVelocity s)) maxCartVelocity
    then sign (cartVelocity s) * maxCartVelocity * 0.95
    else cartVelocity s in
  let w :=
    if Rgt_dec (Rabs (pendulumAngularVelocity s)) maxAngularVelocity
    then sign (pendulumAngularVelocity s) * maxAngularVelocity * 0.95
    else pendulumAngularVelocity s in
  mk (massCart s) (massPendulum s) (length s) (gravity s) (friction s)
     (airResistance s) (cartPosition s) v (pendulumAngle s) w (hasFailed s).

(** Hard limiting of the position, with the bounce. *)
Definition limitPosition (s : t) : t :=
  if Rgt_dec (Rabs (cartPosition s)) maxCartPosition then
    mk (massCart s) (massPendulum s) (length s) (gravity s) (friction s)
       (airResistance s)
       (sign (cartPosition s) * maxCartPosition)
       (cartVelocity s * -0.5)
       (pendulumAngle s) (pendulumAngularVelocity s) (hasFailed s)
  else s.

(** [this.pendulumAngle = this.normalizeAngle(this.pendulumAngle)]. *)
Definition wrapAngle (s : t) : t :=
  mk (massCart s) (massPendulum s) (length s) (gravity s) (friction s)
     (airResistance s) (cartPosition s) (cartVelocity s)
     (normalizeAngle (pendulumAngle s)) (pendulumAngularVelocity s)
     (hasFailed s).

(** The state the position limit is applied to: after the failure check,
    the RK4 step and the velocity limits. *)
Definition beforePositionLimit (s : t) (force dt : R) : t :=
  limitVelocities (integrate (checkFailure s) (clampForce force) (clampDt dt)).

(** [update(force, dt)]. *)
Definition update (s : t) (force dt : R) : t :=
  wrapAngle (limitPosition (beforePositionLimit s force dt)).

(** [reset(initialAngle = 0.1)]; an omitted argument is [None]. *)
Definition reset (s : t) (initialAngle : option R) : t :=
  mk (massCart s) (massPendulum s) (length s) (gravity s) (friction s)
     (airResistance s)
     0 0 (match initialAngle with Some a => a | None => 0.1 end) 0 false.

(** The object returned by [getState]. *)
Record state : Type := mkState {
  st_cartPosition : R;
  st_cartVelocity : R;
  st_pendulumAngle : R;
  st_pendulumAngularVelocity : R;
  st_hasFailed : bool
}.

Definition getState (s : t) : state :=
  {| st_cartPosition := cartPosition s;
     st_cartVelocity := cartVelocity s;
     st_pendulumAngle := pendulumAngle s;
     st_pendulumAngularVelocity := pendulumAngularVelocity s;
     st_hasFailed := hasFailed s |}.

(** [setMasses(cartMass, pendulumMass)]. *)
Definition setMasses (s : t) (cartMass pendulumMass : R) : t :=
  mk (Rmax 0.1 cartMass) (Rmax 0.01 pendulumMass)
     (length s) (gravity s) (friction s) (airResistance s)
     (cartPosition s) (cartVelocity s) (pendulumAngle s)
     (pendulumAngularVelocity s) (hasFailed s).

(** [setAirResistance(resistance)]. *)
Definition setAirResistance (s : t) (resistance : R) : t :=
  mk (massCart s) (massPendulum s) (length s) (gravity s) (friction s)
     (Rmax 0 resistance)
     (cartPosition s) (cartVelocity s) (pendulumAngle s)
     (pendulumAngularVelocity s) (hasFailed s).

(** The object returned by [getParameters]. *)
Record parameters : Type := mkParameters {
  pr_massCart : R;
  pr_massPendulum : R;
  pr_airResistance : R
}.

Definition getParameters (s : t) : parameters :=
  {| pr_massCart := massCart s;
     pr_massPendulum := massPendulum s;
     pr_airResistance := airResistance s |}.

(** A method call on an instance.  The two read accessors return a
    snapshot and leave the instance as it is. *)
Inductive call : Type :=
| Update (force dt : R)
| Reset (initialAngle : option R)
| SetMasses (cartMass pendulumMass : R)
| SetAirResistance (resistance : R)
| GetState
| GetParameters.

Definition perform (s : t) (c : call) : t :=
  match c with
  | Update force dt => update s force dt
  | Reset initialAngle => reset s initialAngle
  | SetMasses cartMass pendulumMass => setMasses s cartMass pendulumMass
  | SetAirResistance resistance => setAirResistance s resistance
  | GetState => s
  | GetParameters => s
  end.

Definition isReset (c : call) : bool :=
  match c with Reset _ => true | _ => false end.

(** A sequence of calls, performed left to right. *)
Definition run (s : t) (cs : list call) : t := fold_left perform cs s.

End InvertedPendulum.

(** ** class PIDController *)

Module PIDController.

Record t : Type := mk {
  kp : R;
  ki : R;
  kd : R;
  integral : R;
  previousError : R;
  previousTime : R;
  filteredDerivative : R;
  useAngleWrapping : bool
}.

Definition derivativeFilterAlpha : R := 0.1.
Definition integralMax : R := 100.
Definition integralMin : R := -100.
Definition outputMax : R := 50.
Definition outputMin : R := -50.

(** [constructor(kp, ki, kd, useAngleWrapping = false)]. *)
Definition new (kp ki kd : R) (useAngleWrapping : option bool) : t :=
  {| kp := kp; ki := ki; kd := kd;
     integral := 0;
     previousError := 0;
     previousTime := 0;
     filteredDerivative := 0;
     useAngleWrapping :=
       match useAngleWrapping with Some b => b | None => false end |}.

(** *** The locals of [calculate], in source order *)

(** [error], after the optional angle wrapping. *)
Definition error (c : t) (setpoint processVariable : R) : R :=
  let error := setpoint - processVariable in
  if useAngleWrapping c then normalizeAngle error else error.

(** [dt] as first assigned: the default on a first call, the elapsed
    time otherwise. *)
Definition rawDt (c : t) (currentTime : R) : R :=
  if Req_dec_T (previousTime c) 0 then 0.016
  else currentTime - previousTime c.

(** [dt = Math.max(0.001, Math.min(dt, 0.1))]. *)
Definition dt (c : t) (currentTime : R) : R :=
  Rmax 0.001 (Rmin (rawDt c currentTime) 0.1).

(** [this.integral] after the accumulation and the clamp. *)
Definition clampedIntegral (c : t) (error dt : R) : R :=
  Rmax integralMin (Rmin integralMax (integral c + error * dt)).

(** [this.filteredDerivative] after the derivative block. *)
Definition newFilteredDerivative (c : t) (error dt : R) : R :=
  if Rgt_dec dt 0 then
    let rawDerivative := (error - previousError c) / dt in
    derivativeFilterAlpha * rawDerivative
    + (1 - derivativeFilterAlpha) * filteredDerivative c
  else filteredDerivative c.

(** The local [derivative]: 0 unless [dt > 0]. *)
Definition derivative (c : t) (error dt : R) : R :=
  if Rgt_dec dt 0 then newFilteredDerivative c error dt else 0.

Definition P (c : t) (error : R) : R := kp c * error.
Definition I (c : t) (error dt : R) : R := ki c * clampedIntegral c error dt.
Definition D (c : t) (error dt : R) : R := kd c * derivative c error dt.

(** [output = P + I + D]. *)
Definition output (c : t) (error dt : R) : R :=
  P c error + I c error dt + D c error dt.

(** [Math.max(this.outputMin, Math.min(this.outputMax, output))]. *)
Definition saturate (output : R) : R :=
  Rmax outputMin (Rmin outputMax output).

(** [this.integral] after the back-calculation block. *)
Definition backCalculated (c : t) (error dt : R) : R :=
  let output := output c error dt in
  let saturatedOutput := saturate output in
  let integral := clampedIntegral c error dt in
  if Req_dec_T output saturatedOutput then integral
  else if Req_dec_T (sign error) (sign integral)
       then integral - error * dt * 0.5
       else integral.

(** [calculate(setpoint, processVariable, currentTime)]: the returned
    number and the instance after the call. *)
Definition calculate (c : t) (setpoint processVariable currentTime : R)
  : R * t :=
  let error := error c setpoint processVariable in
  let dt := dt c currentTime in
  (saturate (output c error dt),
   {| kp := kp c; ki := ki c; kd := kd c;
      integral := backCalculated c error dt;
      previousError := error;
      previousTime := currentTime;
      filteredDerivative := newFilteredDerivative c error dt;
      useAngleWrapping := useAngleWrapping c |}).

(** [reset()]. *)
Definition reset (c : t) : t :=
  {| kp := kp c; ki := ki c; kd := kd c;
     integral := 0;
     previousError := 0;
     previousTime := 0;
     filteredDerivative := 0;
     useAngleWrapping := useAngleWrapping c |}.

(** [setGains(kp, ki, kd)]. *)
Definition setGains (c : t) (kp' ki' kd' : R) : t :=
  {| kp := kp'; ki := ki'; kd := kd';
     integral := integral c;
     previousError := previousError c;
     previousTime := previousTime c;
     filteredDerivative := filteredDerivative c;
     useAngleWrapping := useAngleWrapping c |}.

(** [setAngleWrapping(enabled)]. *)
Definition setAngleWrapping (c : t) (enabled : bool) : t :=
  {| kp := kp c; ki := ki c; kd := kd c;
     integral := integral c;
     previousError := previousError c;
     previousTime := previousTime c;
     filteredDerivative := filteredDerivative c;
     useAngleWrapping := enabled |}.

(** The arguments of one [calculate] call. *)
Record sample : Type := mkSample {
  setpoint : R;
  processVariable : R;
  currentTime : R
}.

(** The instance after a sequence of [calculate] calls. *)
Definition calculateAll (c : t) (samples : list sample) : t :=
  fold_left
    (fun c x => snd (calculate c (setpoint x) (processVariable x) (currentTime x)))
    samples c.

End PIDController.

(** ** Instances and predicates the pendulum statements use *)

Module PendulumCases.
Import InvertedPendulum.

(** The slopes of uniform motion: the cart keeps its velocity and nothing
    accelerates. *)
Definition cruise (s : t) : deriv :=
  {| dx := cartVelocity s; dv := 0; dtheta := 0; domega := 0 |}.

(** A pendulum built hanging straight down, [new InvertedPendulum(1.0,
    0.1, 1.0, -Math.PI)]. *)
Definition hangingDown : t :=
  new (Some 1.0) (Some 0.1) (Some 1.0) (Some (- PI)).

(** A cart cruising towards the right-hand boundary: position 4.99,
    velocity 9, pendulum upright and at rest. *)
Definition nearWall : t := mk 1.0 0.1 1.0 9.81 0.1 0.01 4.99 9 0 0 false.

(** A pendulum of length zero, [new InvertedPendulum(1.0, 0.1, 0)]. *)
Definition zeroLength : t := new (Some 1.0) (Some 0.1) (Some 0) None.

(** [derivative] divides by [denominator] (cart acceleration) and by
    [this.length * denominator] (angular acceleration).  Both divisors are
    bounded away from zero when some positive [eps] is below their
    magnitude at every angle. *)
Definition divisorsBoundedAway (s : t) : Prop :=
  exists eps : R,
    0 < eps
    /\ forall theta : R,
        eps <= Rabs (denominator s theta)
        /\ eps <= Rabs (length s * denominator s theta).

End PendulumCases.

(** ** Instances and predicates the controller statements use *)

Module PIDCases.
Import PIDController.

(** A controller with the gains the page starts with,
    [new PIDController(100, 1, 50)]. *)
Definition pageController : t := new 100 1 50 None.

(** A controller with [kp = 1000], [new PIDController(1000, 1, 50)]. *)
Definition stiff : t := new 1000 1 50 None.

(** Some error magnitude beyond which every call returns 50 or -50. *)
Definition saturatesEventually (c : t) : Prop :=
  exists bound : R,
    forall sp pv time : R,
      bound <= Rabs (error c sp pv) ->
      fst (calculate c sp pv time) = 50 \/ fst (calculate c sp pv time) = -50.

(** [new PIDController(1000, 0, -160)]: on a first call the derivative
    term is [-160 * 0.1 * error / 0.016 = -1000 * error]. *)
Definition cancelling : t := new 1000 0 (-160) None.

End PIDCases.

(** ** Further predicates on call sequences *)

Module CallCases.
Import InvertedPendulum.

(** The two calls that write a physical parameter. *)
Definition isSetter (c : call) : bool :=
  match c with
  | SetMasses _ _ => true
  | SetAirResistance _ => true
  | _ => false
  end.

End CallCases.

(** ** class InvertedPendulum, the basic variant

    The second [InvertedPendulum] class of [src/lib/InvertedPendulum.ts]:
    no clamps on the inputs, no failure flag, no velocity limits, no guard
    in [derivative], linear friction only, and a cart that stops dead at
    the boundary. *)

Module BasicPendulum.

Record t : Type := mk {
  massCart : R;
  massPendulum : R;
  length : R;
  gravity : R;
  friction : R;
  airResistance : R;
  cartPosition : R;
  cartVelocity : R;
  pendulumAngle : R;
  pendulumAngularVelocity : R
}.

Definition maxCartPosition : R := 5.0.

(** [constructor(massCart = 1.0, massPendulum = 0.1, length = 1.0,
    initialAngle = 0.1)]. *)
Definition new (massCart massPendulum length initialAngle : option R) : t :=
  {| massCart := match massCart with Some m => m | None => 1.0 end;
     massPendulum := match massPendulum with Some m => m | None => 0.1 end;
     length := match length with Some l => l | None => 1.0 end;
     gravity := 9.81;
     friction := 0.1;
     airResistance := 0.0;
     cartPosition := 0;
     cartVelocity := 0;
     pendulumAngle := match initialAngle with Some a => a | None => 0.1 end;
     pendulumAngularVelocity := 0 |}.

Record deriv : Type := mkDeriv {
  dx : R;
  dv : R;
  dtheta : R;
  domega : R
}.

Definition stage (cur : R) (dt : R) (k : option deriv) (f : deriv -> R) : R :=
  cur + match k with Some k => f k * dt | None => 0 end.

Definition denominator (s : t) (theta : R) : R :=
  let cosTheta := cos theta in
  let totalMass := massCart s + massPendulum s in
  totalMass - massPendulum s * cosTheta * cosTheta.

Definition cartAccel (s : t) (force v theta omega : R) : R :=
  let sinTheta := sin theta in
  let cosTheta := cos theta in
  (force - friction s * v
   + massPendulum s * length s * omega * omega * sinTheta
   - massPendulum s * gravity s * sinTheta * cosTheta) / denominator s theta.

Definition angularAccel (s : t) (force v theta omega : R) : R :=
  let sinTheta := sin theta in
  let cosTheta := cos theta in
  let totalMass := massCart s + massPendulum s in
  (force * cosTheta - friction s * v * cosTheta
   + totalMass * gravity s * sinTheta
   + massPendulum s * length s * omega * omega * sinTheta * cosTheta
   - airResistance s * omega * length s) / (length s * denominator s theta).

(** [derivative(force, dt = 0, k?)]; the unused local [x] is left out. *)
Definition derivative (s : t) (force dt : R) (k : option deriv) : deriv :=
  let v := stage (cartVelocity s) dt k dv in
  let theta := stage (pendulumAngle s) dt k dtheta in
  let omega := stage (pendulumAngularVelocity s) dt k domega in
  {| dx := v;
     dv := cartAccel s force v theta omega;
     dtheta := omega;
     domega := angularAccel s force v theta omega |}.

(** The four RK4 slopes and the weighted state update. *)
Definition integrate (s : t) (force dt : R) : t :=
  let k1 := derivative s force 0 None in
  let k2 := derivative s force (dt / 2) (Some k1) in
  let k3 := derivative s force (dt / 2) (Some k2) in
  let k4 := derivative s force dt (Some k3) in
  let rk (f : deriv -> R) := (dt / 6) * (f k1 + 2 * f k2 + 2 * f k3 + f k4) in
  mk (massCart s) (massPendulum s) (length s) (gravity s) (friction s)
     (airResistance s)
     (cartPosition s + rk dx)
     (cartVelocity s + rk dv)
     (pendulumAngle s + rk dtheta)
     (pendulumAngularVelocity s + rk domega).

(** [if (Math.abs(this.cartPosition) > this.maxCartPosition)]: the cart is
    put on the boundary and stopped. *)
Definition limitPosition (s : t) : t :=
  if Rgt_dec (Rabs (cartPosition s)) maxCartPosition then
    mk (massCart s) (massPendulum s) (length s) (gravity s) (friction s)
       (airResistance s)
       (sign (cartPosition s) * maxCartPosition)
       0
       (pendulumAngle s) (pendulumAngularVelocity s)
  else s.

Definition wrapAngle (s : t) : t :=
  mk (massCart s) (massPendulum s) (length s) (gravity s) (friction s)
     (airResistance s) (cartPosition s) (cartVelocity s)
     (normalizeAngle (pendulumAngle s)) (pendulumAngularVelocity s).

(** [update(force, dt)]. *)
Definition update (s : t) (force dt : R) : t :=
  wrapAngle (limitPosition (integrate s force dt)).

(** [reset(initialAngle = 0.1)]. *)
Definition reset (s : t) (initialAngle : option R) : t :=
  mk (massCart s) (massPendulum s) (length s) (gravity s) (friction s)
     (airResistance s)
     0 0 (match initialAngle with Some a => a | None => 0.1 end) 0.

(** [setMasses(cartMass, pendulumMass)]: no floors. *)
Definition setMasses (s : t) (cartMass pendulumMass : R) : t :=
  mk cartMass pendulumMass
     (length s) (gravity s) (friction s) (airResistance s)
     (cartPosition s) (cartVelocity s) (pendulumAngle s)
     (pendulumAngularVelocity s).

(** [setAirResistance(resistance)]: no floor. *)
Definition setAirResistance (s : t) (resistance : R) : t :=
  mk (massCart s) (massPendulum s) (length s) (gravity s) (friction s)
     resistance
     (cartPosition s) (cartVelocity s) (pendulumAngle s)
     (pendulumAngularVelocity s).

(** The enhanced instance with the same parameters and state, its failure
    flag clear. *)
Definition enhanced (s : t) : InvertedPendulum.t :=
  InvertedPendulum.mk
    (massCart s) (massPendulum s) (length s) (gravity s) (friction s)
    (airResistance s) (cartPosition s) (cartVelocity s) (pendulumAngle s)
    (pendulumAngularVelocity s) false.

End BasicPendulum.

(** ** class PIDController, the basic variant

    The [PIDController] class without output limits, derivative filter,
    back-calculation and angle wrapping. *)

Module BasicPID.

Record t : Type := mk {
  kp : R;
  ki : R;
  kd : R;
  integral : R;
  previousError : R;
  previousTime : R
}.

(** [constructor(kp, ki, kd)]. *)
Definition new (kp ki kd : R) : t :=
  {| kp := kp; ki := ki; kd := kd;
     integral := 0; previousError := 0; previousTime := 0 |}.

(** [dt]: the default on a first call, the elapsed time otherwise; not
    clamped. *)
Definition dt (c : t) (currentTime : R) : R :=
  if Req_dec_T (previousTime c) 0 then 0.016
  else currentTime - previousTime c.

(** [this.integral] after the accumulation and the clamp. *)
Definition clampedIntegral (c : t) (error dt : R) : R :=
  Rmax (-100) (Rmin 100 (integral c + error * dt)).

(** [dt > 0 ? (error - this.previousError) / dt : 0]. *)
Definition derivative (c : t) (error dt : R) : R :=
  if Rgt_dec dt 0 then (error - previousError c) / dt else 0.

(** [calculate(setpoint, processVariable, currentTime)]: the returned
    number and the instance after the call. *)
Definition calculate (c : t) (setpoint processVariable currentTime : R)
  : R * t :=
  let error := setpoint - processVariable in
  let dt := dt c currentTime in
  let P := kp c * error in
  let I := ki c * clampedIntegral c error dt in
  let D := kd c * derivative c error dt in
  (P + I + D,
   {| kp := kp c; ki := ki c; kd := kd c;
      integral := clampedIntegral c error dt;
      previousError := error;
      previousTime := currentTime |}).

(** [reset()]. *)
Definition reset (c : t) : t :=
  {| kp := kp c; ki := ki c; kd := kd c;
     integral := 0; previousError := 0; previousTime := 0 |}.

(** [setGains(kp, ki, kd)]. *)
Definition setGains (c : t) (kp' ki' kd' : R) : t :=
  {| kp := kp'; ki := ki'; kd := kd';
     integral := integral c;
     previousError := previousError c;
     previousTime := previousTime c |}.

(** The instance after a sequence of [calculate] calls. *)
Definition calculateAll (c : t) (samples : list PIDController.sample) : t :=
  fold_left
    (fun c x =>
       snd (calculate c (PIDController.setpoint x)
                        (PIDController.processVariable x)
                        (PIDController.currentTime x)))
    samples c.

End BasicPID.

(** ** Controllers related to a given one *)

Module PIDVariants.
Import PIDController.

(** The basic controller with the gains, integral, previous error and
    previous time of an enhanced one. *)
Definition basic (c : t) : BasicPID.t :=
  BasicPID.mk (kp c) (ki c) (kd c) (integral c) (previousError c) (previousTime c).

(** The controller with the same gains and clock whose integral, previous
    error and filtered derivative have the opposite sign. *)
Definition mirror (c : t) : t :=
  {| kp := kp c; ki := ki c; kd := kd c;
     integral := - integral c;
     previousError := - previousError c;
     previousTime := previousTime c;
     filteredDerivative := - filteredDerivative c;
     useAngleWrapping := useAngleWrapping c |}.

End PIDVariants.

(** ** The page: [src/pages/index.tsx]

    The simulation loop of the page, on the objects its refs hold.  The
    page is modelled with the enhanced controller.  Left out: the null
    checks of the refs, the scheduling of the next animation frame, and
    the React state that only feeds the display. *)

Module Page.

(** [interface DataPoint]. *)
Record DataPoint : Type := mkPoint {
  time : R;
  value : R
}.

(** [pendulumRef], [controllerRef], [lastTimeRef] and [startTimeRef]. *)
Record refs : Type := mkRefs {
  pendulum : InvertedPendulum.t;
  controller : PIDController.t;
  lastTime : R;
  startTime : R
}.

(** What one call of [simulate] leaves behind: the refs, the force shown,
    and the points appended to [angleHistory] and [anglePositionData]. *)
Record frame : Type := mkFrame {
  after : refs;
  force : R;
  anglePoint : DataPoint;
  positionPoint : DataPoint
}.

(** [simulate(currentTime)], with the value of [controllerEnabled] the
    callback closes over. *)
Definition simulate (controllerEnabled : bool) (r : refs) (currentTime : R)
  : frame :=
  let dt :=
    if Req_dec_T (lastTime r) 0 then 0.016
    else (currentTime - lastTime r) / 1000 in
  let clampedDt := Rmin dt 0.033 in
  let state := InvertedPendulum.getState (pendulum r) in
  let called :=
    PIDController.calculate (controller r) 0
      (InvertedPendulum.st_pendulumAngle state) (currentTime / 1000) in
  let force := if controllerEnabled then fst called else 0 in
  let controller' := if controllerEnabled then snd called else controller r in
  let pendulum' := InvertedPendulum.update (pendulum r) force clampedDt in
  let newState := InvertedPendulum.getState pendulum' in
  let elapsedTime := (currentTime - startTime r) / 1000 in
  let angleDegrees := InvertedPendulum.st_pendulumAngle newState * (180 / PI) in
  {| after := {| pendulum := pendulum';
                 controller := controller';
                 lastTime := currentTime;
                 startTime := startTime r |};
     force := force;
     anglePoint := {| time := elapsedTime; value := angleDegrees |};
     positionPoint :=
       {| time := InvertedPendulum.st_cartPosition newState;
          value := angleDegrees |} |}.

(** [handleReset], with the value of [initialAngle] it closes over. *)
Definition handleReset (initialAngle : R) (r : refs) : refs :=
  {| pendulum := InvertedPendulum.reset (pendulum r) (Some initialAngle);
     controller := PIDController.reset (controller r);
     lastTime := 0;
     startTime := 0 |}.

(** [toggleController]: the new value of [controllerEnabled] and the
    refs; the controller is reset when it is switched on. *)
Definition toggleController (controllerEnabled : bool) (r : refs) : bool * refs :=
  let newState := negb controllerEnabled in
  (newState,
   if newState then
     {| pendulum := pendulum r;
        controller := PIDController.reset (controller r);
        lastTime := lastTime r;
        startTime := startTime r |}
   else r).

(** One animation frame: the flag in force and the time stamp. *)
Record tick : Type := mkTick {
  enabled : bool;
  stamp : R
}.

(** The refs after a sequence of animation frames. *)
Definition simulateAll (r : refs) (ticks : list tick) : refs :=
  fold_left (fun r k => after (simulate (enabled k) r (stamp k))) ticks r.

End Page.

(** ** The graph: [src/components/LiveGraph.tsx]

    The coordinates the drawing effect computes.  The canvas is the 800 by
    300 one the component renders. *)

Module LiveGraph.
Import Page.

Definition canvasWidth : R := 800.
Definition canvasHeight : R := 300.

(** [const padding = { top: 40, right: 30, bottom: 50, left: 60 }]. *)
Definition paddingTop : R := 40.
Definition paddingRight : R := 30.
Definition paddingBottom : R := 50.
Definition paddingLeft : R := 60.

Definition plotWidth : R := canvasWidth - paddingLeft - paddingRight.
Definition plotHeight : R := canvasHeight - paddingTop - paddingBottom.

(** [data.slice(-maxDataPoints)] for a count [maxDataPoints]: the last
    [maxDataPoints] elements, and, as [-0] is [0], the whole array when
    the count is 0. *)
Definition slice (maxDataPoints : nat) (data : list DataPoint) : list DataPoint :=
  match maxDataPoints with
  | O => data
  | S _ => skipn (List.length data - maxDataPoints) data
  end.

(** [Math.min(...xs)] and [Math.max(...xs)] of a non-empty array
    [x :: xs]. *)
Definition minOf (x : R) (xs : list R) : R := fold_left Rmin xs x.
Definition maxOf (x : R) (xs : list R) : R := fold_left Rmax xs x.

(** [x || 1]: 0 is falsy. *)
Definition orOne (x : R) : R := if Req_dec_T x 0 then 1 else x.

(** The props that shape the plot; [maxDataPoints] defaults to 500 and
    the four bounds to [undefined]. *)
Record props : Type := mkProps {
  data : list DataPoint;
  maxDataPoints : option nat;
  yMin : option R;
  yMax : option R;
  xMin : option R;
  xMax : option R
}.

(** The window length in force: [maxDataPoints = 500] by default. *)
Definition window (p : props) : nat :=
  match maxDataPoints p with Some n => n | None => 500%nat end.

(** The ranges the effect settles on. *)
Record ranges : Type := mkRanges {
  displayData : list DataPoint;
  minTime : R;
  timeRange : R;
  valueMin : R;
  valueRange : R
}.

(** The effect up to [valueRange].  [None] is the early return on empty
    data; with data, [displayData] is not empty. *)
Definition layout (p : props) : option ranges :=
  match data p with
  | [] => None
  | _ :: _ =>
      let displayData :=
        slice (window p) (data p) in
      match displayData with
      | [] => None
      | d :: ds =>
          let times := map time displayData in
          let autoMinTime := minOf (time d) (map time ds) in
          let autoMaxTime := maxOf (time d) (map time ds) in
          let minTime := match xMin p with Some x => x | None => autoMinTime end in
          let maxTime := match xMax p with Some x => x | None => autoMaxTime end in
          let timeRange := orOne (maxTime - minTime) in
          let autoMin := minOf (value d) (map value ds) in
          let autoMax := maxOf (value d) (map value ds) in
          let valueMin :=
            match yMin p with
            | Some y => y
            | None => autoMin - (autoMax - autoMin) * 0.1
            end in
          let valueMax :=
            match yMax p with
            | Some y => y
            | None => autoMax + (autoMax - autoMin) * 0.1
            end in
          let valueRange := orOne (valueMax - valueMin) in
          Some {| displayData := displayData;
                  minTime := minTime;
                  timeRange := timeRange;
                  valueMin := valueMin;
                  valueRange := valueRange |}
      end
  end.

(** Canvas coordinates of a data point. *)
Definition plotX (g : ranges) (point : DataPoint) : R :=
  paddingLeft + ((time point - minTime g) / timeRange g) * plotWidth.

Definition plotY (g : ranges) (point : DataPoint) : R :=
  paddingTop + plotHeight - ((value point - valueMin g) / valueRange g) * plotHeight.

(** The vertices of the data line: none unless [displayData] has more
    than one point. *)
Definition line (g : ranges) : list (R * R) :=
  match displayData g with
  | _ :: _ :: _ => map (fun point => (plotX g point, plotY g point)) (displayData g)
  | _ => []
  end.

(** A canvas point inside the plot rectangle. *)
Definition inPlot (xy : R * R) : Prop :=
  paddingLeft <= fst xy <= paddingLeft + plotWidth
  /\ paddingTop <= snd xy <= paddingTop + plotHeight.

End LiveGraph.

(** ** The drawing of the pendulum: [src/components/PendulumCanvas.tsx]

    The coordinates of the drawing effect, on the 800 by 400 canvas the
    component renders. *)

Module PendulumCanvas.

Definition canvasWidth : R := 800.
Definition canvasHeight : R := 400.
Definition cartHeight : R := 60.
Definition pendulumLength : R := 150.

Definition cartX (cartPosition scale : R) : R :=
  canvasWidth / 2 + cartPosition * scale.

Definition cartY : R := canvasHeight / 2 + 30.

Definition pendulumEndX (cartPosition pendulumAngle scale : R) : R :=
  cartX cartPosition scale + sin pendulumAngle * pendulumLength.

Definition pendulumEndY (pendulumAngle : R) : R :=
  cartY - cos pendulumAngle * pendulumLength.

(** The rod is drawn from the pivot [(cartX, cartY - cartHeight / 2)]. *)
Definition pivotY : R := cartY - cartHeight / 2.

End PendulumCanvas.

(** ** Numbers with their special values

    The modules above compute on real numbers, which is what the code
    does as long as every intermediate value is finite and every divisor
    non-zero.  The modules below follow the same source on numbers that
    can also be [Infinity], [-Infinity] and [NaN], and leave the rounded
    arithmetic open: addition, subtraction, multiplication, division, sine
    and cosine are the fields of an [arithmetic], of which the theorems
    assume only the [laws] they need.  Comparisons, [Math.abs],
    [Math.sign], [Math.max], [Math.min] and unary minus involve no
    rounding and are defined outright.  The two zeros are one number
    here: they compare equal, and only the sign of an infinity obtained by
    dividing by a zero tells them apart, on which no statement depends. *)

Module Js.

Inductive number : Type :=
| Num (r : R)
| PosInf
| NegInf
| NaN.

(** [x > y]: false when either side is [NaN]. *)
Definition gt (x y : number) : bool :=
  match x, y with
  | NaN, _ => false
  | _, NaN => false
  | NegInf, _ => false
  | _, PosInf => false
  | PosInf, _ => true
  | Num _, NegInf => true
  | Num a, Num b => if Rgt_dec a b then true else false
  end.

(** [x < y]. *)
Definition lt (x y : number) : bool := gt y x.

(** [x === y]: [NaN] equals nothing. *)
Definition same (x y : number) : bool :=
  match x, y with
  | Num a, Num b => if Req_dec_T a b then true else false
  | PosInf, PosInf => true
  | NegInf, NegInf => true
  | _, _ => false
  end.

(** Unary minus. *)
Definition neg (x : number) : number :=
  match x with
  | Num r => Num (- r)
  | PosInf => NegInf
  | NegInf => PosInf
  | NaN => NaN
  end.

(** [Math.abs]. *)
Definition abs (x : number) : number :=
  match x with
  | Num r => Num (Rabs r)
  | PosInf => PosInf
  | NegInf => PosInf
  | NaN => NaN
  end.

(** [Math.sign]. *)
Definition signOf (x : number) : number :=
  match x with
  | Num r => Num (sign r)
  | PosInf => Num 1
  | NegInf => Num (-1)
  | NaN => NaN
  end.

(** [Math.max(x, y)]: [NaN] when either argument is. *)
Definition max (x y : number) : number :=
  match x, y with
  | NaN, _ => NaN
  | _, NaN => NaN
  | PosInf, _ => PosInf
  | _, PosInf => PosInf
  | NegInf, _ => y
  | _, NegInf => x
  | Num a, Num b => Num (Rmax a b)
  end.

(** [Math.min(x, y)]: [NaN] when either argument is. *)
Definition min (x y : number) : number :=
  match x, y with
  | NaN, _ => NaN
  | _, NaN => NaN
  | NegInf, _ => NegInf
  | _, NegInf => NegInf
  | PosInf, _ => y
  | _, PosInf => x
  | Num a, Num b => Num (Rmin a b)
  end.

(** A number that is not [NaN] and lies between two reals. *)
Definition within (lo hi : R) (x : number) : Prop :=
  match x with
  | Num r => lo <= r <= hi
  | _ => False
  end.

(** The six rounded operations of the code. *)
Record arithmetic : Type := mkArithmetic {
  add : number -> number -> number;
  sub : number -> number -> number;
  mul : number -> number -> number;
  div : number -> number -> number;
  sin : number -> number;
  cos : number -> number
}.

(** What the theorems assume of the arithmetic; each law holds of
    double-precision arithmetic with rounding to nearest.  Multiplying by
    1 or by -1 is exact.  Adding [2 * Math.PI] to a number below
    [-Math.PI] gives a number that is at most [Math.PI] (the exact sum is
    below it, and rounding is monotone).  Neither shift of
    [normalizeAngle] makes a [NaN] of a number that is not one. *)
Record laws (A : arithmetic) : Prop := mkLaws {
  mul_one_l : forall x, mul A (Num 1) x = x;
  mul_minus_one_l : forall x, mul A (Num (-1)) x = neg x;
  add_turn :
    forall x,
      lt x (neg (Num PI)) = true ->
      gt (add A x (mul A (Num 2) (Num PI))) (Num PI) = false
      /\ add A x (mul A (Num 2) (Num PI)) <> NaN;
  sub_turn :
    forall x,
      gt x (Num PI) = true ->
      sub A x (mul A (Num 2) (Num PI)) <> NaN
}.

(** The shifts of [normalizeAngle] make progress up to the magnitude
    [bound]: from a finite angle beyond [Math.PI] on either side they
    move at least 1 towards zero and stay finite.  Double-precision
    arithmetic does so for a [bound] of [2^52], where neighbouring
    numbers are at most 1 apart; it does not for larger angles, which the
    shift can leave unchanged. *)
Record progress (bound : R) (A : arithmetic) : Prop := mkProgress {
  turn_down :
    forall r,
      PI < r <= bound ->
      exists r',
        sub A (Num r) (mul A (Num 2) (Num PI)) = Num r'
        /\ - bound <= r' <= r - 1;
  turn_up :
    forall r,
      - bound <= r < - PI ->
      exists r',
        add A (Num r) (mul A (Num 2) (Num PI)) = Num r' /\ r + 1 <= r'
}.

(** Multiplying by a factor of magnitude at most 1 does not increase the
    magnitude of a finite number (the exact product lies between the
    number and its opposite, both of which are representable, and rounding
    is monotone), and a product with [NaN] is [NaN]. *)
Record contraction (A : arithmetic) : Prop := mkContraction {
  mul_shrink :
    forall r c,
      Rabs c <= 1 -> within (- Rabs r) (Rabs r) (mul A (Num r) (Num c));
  mul_NaN_l : forall x, mul A NaN x = NaN
}.

(** *** Exact arithmetic

    The arithmetic without rounding and without overflow, with the
    special values of IEEE 754: a non-zero number over zero is an
    infinity, and zero over zero, zero times an infinity, and an infinity
    less itself are [NaN].  The sign of a zero is not tracked. *)

Definition exactAdd (x y : number) : number :=
  match x, y with
  | NaN, _ => NaN
  | _, NaN => NaN
  | PosInf, NegInf => NaN
  | NegInf, PosInf => NaN
  | PosInf, _ => PosInf
  | _, PosInf => PosInf
  | NegInf, _ => NegInf
  | _, NegInf => NegInf
  | Num a, Num b => Num (a + b)
  end.

Definition exactSub (x y : number) : number := exactAdd x (neg y).

(** An infinity with the sign of [r], [NaN] for zero. *)
Definition signedInf (r : R) (positive : bool) : number :=
  if Rlt_dec 0 r then (if positive then PosInf else NegInf)
  else if Rlt_dec r 0 then (if positive then NegInf else PosInf)
  else NaN.

Definition exactMul (x y : number) : number :=
  match x, y with
  | NaN, _ => NaN
  | _, NaN => NaN
  | Num a, Num b => Num (a * b)
  | Num a, PosInf => signedInf a true
  | Num a, NegInf => signedInf a false
  | PosInf, Num b => signedInf b true
  | NegInf, Num b => signedInf b false
  | PosInf, PosInf => PosInf
  | NegInf, NegInf => PosInf
  | PosInf, NegInf => NegInf
  | NegInf, PosInf => NegInf
  end.

Definition exactDiv (x y : number) : number :=
  match x, y with
  | NaN, _ => NaN
  | _, NaN => NaN
  | Num a, Num b => if Req_dec_T b 0 then signedInf a true else Num (a / b)
  | Num _, PosInf => Num 0
  | Num _, NegInf => Num 0
  | PosInf, Num b => if Rlt_dec b 0 then NegInf else PosInf
  | NegInf, Num b => if Rlt_dec b 0 then PosInf else NegInf
  | _, _ => NaN
  end.

Definition exactSin (x : number) : number :=
  match x with Num r => Num (Rtrigo_def.sin r) | _ => NaN end.

Definition exactCos (x : number) : number :=
  match x with Num r => Num (Rtrigo_def.cos r) | _ => NaN end.

Definition exact : arithmetic :=
  mkArithmetic exactAdd exactSub exactMul exactDiv exactSin exactCos.

End Js.

(** ** class InvertedPendulum, on numbers with special values *)

Module JsPendulum.
Import Js.

Record t : Type := mk {
  massCart : number;
  massPendulum : number;
  length : number;
  gravity : number;
  friction : number;
  airResistance : number;
  cartPosition : number;
  cartVelocity : number;
  pendulumAngle : number;
  pendulumAngularVelocity : number;
  hasFailed : bool
}.

Record deriv : Type := mkDeriv {
  dx : number;
  dv : number;
  dtheta : number;
  domega : number
}.

(** [constructor(massCart = 1.0, massPendulum = 0.1, length = 1.0,
    initialAngle = 0.1)]. *)
Definition new (massCart massPendulum length initialAngle : option number) : t :=
  {| massCart := match massCart with Some m => m | None => Num 1.0 end;
     massPendulum := match massPendulum with Some m => m | None => Num 0.1 end;
     length := match length with Some l => l | None => Num 1.0 end;
     gravity := Num 9.81;
     friction := Num 0.1;
     airResistance := Num 0.01;
     cartPosition := Num 0;
     cartVelocity := Num 0;
     pendulumAngle := match initialAngle with Some a => a | None => Num 0.1 end;
     pendulumAngularVelocity := Num 0;
     hasFailed := false |}.

Definition maxCartPosition : number := Num 5.0.
Definition maxCartVelocity : number := Num 10.0.
Definition maxAngularVelocity : number := Num 20.0.

Section WithArithmetic.

Variable A : arithmetic.

Local Notation "x + y" := (add A x y).
Local Notation "x - y" := (sub A x y).
Local Notation "x * y" := (mul A x y).
Local Notation "x / y" := (div A x y).

(** [Math.PI / 3]. *)
Definition failureAngleThreshold : number := Num PI / Num 3.

Definition stage (cur : number) (dt : number) (k : option deriv)
  (f : deriv -> number) : number :=
  cur + match k with Some k => f k * dt | None => Num 0 end.

(** [derivative(force, dt = 0, k?)]; the unused local [x] is left out. *)
Definition derivative (s : t) (force dt : number) (k : option deriv) : deriv :=
  let v := stage (cartVelocity s) dt k dv in
  let theta := stage (pendulumAngle s) dt k dtheta in
  let omega := stage (pendulumAngularVelocity s) dt k domega in
  let sinTheta := sin A theta in
  let cosTheta := cos A theta in
  let totalMass := massCart s + massPendulum s in
  let denominator := totalMass - massPendulum s * cosTheta * cosTheta in
  if lt (abs denominator) (Num 0.001) then
    {| dx := v; dv := Num 0; dtheta := omega; domega := Num 0 |}
  else
    let frictionForce := friction s * v + Num 0.01 * v * abs v in
    let cartAccel :=
      (force - frictionForce
       + massPendulum s * length s * omega * omega * sinTheta
       - massPendulum s * gravity s * sinTheta * cosTheta) / denominator in
    let angularDamping :=
      airResistance s * omega + Num 0.001 * omega * abs omega in
    let angularAccel :=
      (force * cosTheta - frictionForce * cosTheta
       + totalMass * gravity s * sinTheta
       + massPendulum s * length s * omega * omega * sinTheta * cosTheta
       - angularDamping * length s) / (length s * denominator) in
    {| dx := v; dv := cartAccel; dtheta := omega; domega := angularAccel |}.

(** [force = Math.max(-maxForce, Math.min(maxForce, force))]. *)
Definition clampForce (force : number) : number :=
  let maxForce := Num 50.0 in
  max (neg maxForce) (min maxForce force).

(** [dt = Math.min(dt, 0.02)]. *)
Definition clampDt (dt : number) : number := min dt (Num 0.02).

Definition checkFailure (s : t) : t :=
  if gt (abs (pendulumAngle s)) failureAngleThreshold then
    mk (massCart s) (massPendulum s) (length s) (gravity s) (friction s)
       (airResistance s) (cartPosition s) (cartVelocity s)
       (pendulumAngle s) (pendulumAngularVelocity s) true
  else s.

(** The four RK4 slopes and the weighted state update. *)
Definition integrate (s : t) (force dt : number) : t :=
  let k1 := derivative s force (Num 0) None in
  let k2 := derivative s force (dt / Num 2) (Some k1) in
  let k3 := derivative s force (dt / Num 2) (Some k2) in
  let k4 := derivative s force dt (Some k3) in
  let rk (f : deriv -> number) :=
    (dt / Num 6) * (f k1 + Num 2 * f k2 + Num 2 * f k3 + f k4) in
  mk (massCart s) (massPendulum s) (length s) (gravity s) (friction s)
     (airResistance s)
     (cartPosition s + rk dx)
     (cartVelocity s + rk dv)
     (pendulumAngle s + rk dtheta)
     (pendulumAngularVelocity s + rk domega)
     (hasFailed s).

(** Soft limiting of both velocities. *)
Definition limitVelocities (s : t) : t :=
  let v :=
    if gt (abs (cartVelocity s)) maxCartVelocity
    then signOf (cartVelocity s) * maxCartVelocity * Num 0.95
    else cartVelocity s in
  let w :=
    if gt (abs (pendulumAngularVelocity s)) maxAngularVelocity
    then signOf (pendulumAngularVelocity s) * maxAngularVelocity * Num 0.95
    else pendulumAngularVelocity s in
  mk (massCart s) (massPendulum s) (length s) (gravity s) (friction s)
     (airResistance s) (cartPosition s) v (pendulumAngle s) w (hasFailed s).

(** Hard limiting of the position, with the bounce. *)
Definition limitPosition (s : t) : t :=
  if gt (abs (cartPosition s)) maxCartPosition then
    mk (massCart s) (massPendulum s) (length s) (gravity s) (friction s)
       (airResistance s)
       (signOf (cartPosition s) * maxCartPosition)
       (cartVelocity s * Num (-0.5))
       (pendulumAngle s) (pendulumAngularVelocity s) (hasFailed s)
  else s.

(** The state before and after the position limit. *)
Definition beforePositionLimit (s : t) (force dt : number) : t :=
  limitVelocities (integrate (checkFailure s) (clampForce force) (clampDt dt)).

Definition afterPositionLimit (s : t) (force dt : number) : t :=
  limitPosition (beforePositionLimit s force dt).

(** [while (angle > Math.PI) angle -= 2 * Math.PI;] run for at most
    [fuel] iterations: [None] when the loop has not ended by then. *)
Fixpoint wrapDown (fuel : nat) (angle : number) : option number :=
  if gt angle (Num PI) then
    match fuel with
    | O => None
    | S fuel' => wrapDown fuel' (angle - Num 2 * Num PI)
    end
  else Some angle.

(** [while (angle < -Math.PI) angle += 2 * Math.PI;]. *)
Fixpoint wrapUp (fuel : nat) (angle : number) : option number :=
  if lt angle (neg (Num PI)) then
    match fuel with
    | O => None
    | S fuel' => wrapUp fuel' (angle + Num 2 * Num PI)
    end
  else Some angle.

(** [normalizeAngle], each loop with [fuel] iterations at most. *)
Definition normalizeAngle (fuel : nat) (angle : number) : option number :=
  match wrapDown fuel angle with
  | Some lowered => wrapUp fuel lowered
  | None => None
  end.

(** [update(force, dt)]: [None] when [normalizeAngle] has not returned
    within [fuel] iterations of either loop. *)
Definition update (fuel : nat) (s : t) (force dt : number) : option t :=
  let a := afterPositionLimit s force dt in
  match normalizeAngle fuel (pendulumAngle a) with
  | Some angle =>
      Some (mk (massCart a) (massPendulum a) (length a) (gravity a)
               (friction a) (airResistance a) (cartPosition a)
               (cartVelocity a) angle (pendulumAngularVelocity a)
               (hasFailed a))
  | None => None
  end.

End WithArithmetic.

(** A state of the real-number model as a state of this one. *)
Definition lift (s : InvertedPendulum.t) : t :=
  mk (Num (InvertedPendulum.massCart s)) (Num (InvertedPendulum.massPendulum s))
     (Num (InvertedPendulum.length s)) (Num (InvertedPendulum.gravity s))
     (Num (InvertedPendulum.friction s)) (Num (InvertedPendulum.airResistance s))
     (Num (InvertedPendulum.cartPosition s)) (Num (InvertedPendulum.cartVelocity s))
     (Num (InvertedPendulum.pendulumAngle s))
     (Num (InvertedPendulum.pendulumAngularVelocity s))
     (InvertedPendulum.hasFailed s).

Definition liftDeriv (k : InvertedPendulum.deriv) : deriv :=
  mkDeriv (Num (InvertedPendulum.dx k)) (Num (InvertedPendulum.dv k))
          (Num (InvertedPendulum.dtheta k)) (Num (InvertedPendulum.domega k)).

End JsPendulum.

(** ** class PIDController, on numbers with special values *)

Module JsPID.
Import Js.

Record t : Type := mk {
  kp : number;
  ki : number;
  kd : number;
  integral : number;
  previousError : number;
  previousTime : number;
  filteredDerivative : number;
  useAngleWrapping : bool
}.

Definition derivativeFilterAlpha : number := Num 0.1.
Definition integralMax : number := Num 100.
Definition integralMin : number := Num (-100).
Definition outputMax : number := Num 50.
Definition outputMin : number := Num (-50).

(** [constructor(kp, ki, kd, useAngleWrapping = false)]. *)
Definition new (kp ki kd : number) (useAngleWrapping : option bool) : t :=
  {| kp := kp; ki := ki; kd := kd;
     integral := Num 0;
     previousError := Num 0;
     previousTime := Num 0;
     filteredDerivative := Num 0;
     useAngleWrapping :=
       match useAngleWrapping with Some b => b | None => false end |}.

(** [Math.max(this.outputMin, Math.min(this.outputMax, output))]. *)
Definition saturate (output : number) : number :=
  max outputMin (min outputMax output).

Section WithArithmetic.

Variable A : arithmetic.

Local Notation "x + y" := (add A x y).
Local Notation "x - y" := (sub A x y).
Local Notation "x * y" := (mul A x y).
Local Notation "x / y" := (div A x y).

(** [error], after the optional angle wrapping; [None] when
    [normalizeAngle] has not returned within [fuel] iterations. *)
Definition error (fuel : nat) (c : t) (setpoint processVariable : number)
  : option number :=
  let error := setpoint - processVariable in
  if useAngleWrapping c then JsPendulum.normalizeAngle A fuel error
  else Some error.

(** [dt], after the clamp. *)
Definition dt (c : t) (currentTime : number) : number :=
  let dt :=
    if same (previousTime c) (Num 0) then Num 0.016
    else currentTime - previousTime c in
  max (Num 0.001) (min dt (Num 0.1)).

Definition clampedIntegral (c : t) (error dt : number) : number :=
  max integralMin (min integralMax (integral c + error * dt)).

Definition newFilteredDerivative (c : t) (error dt : number) : number :=
  if gt dt (Num 0) then
    let rawDerivative := (error - previousError c) / dt in
    derivativeFilterAlpha * rawDerivative
    + (Num 1 - derivativeFilterAlpha) * filteredDerivative c
  else filteredDerivative c.

Definition derivative (c : t) (error dt : number) : number :=
  if gt dt (Num 0) then newFilteredDerivative c error dt else Num 0.

Definition P (c : t) (error : number) : number := kp c * error.
Definition I (c : t) (error dt : number) : number :=
  ki c * clampedIntegral c error dt.
Definition D (c : t) (error dt : number) : number :=
  kd c * derivative c error dt.

(** [output = P + I + D]. *)
Definition output (c : t) (error dt : number) : number :=
  P c error + I c error dt + D c error dt.

(** [this.integral] after the back-calculation block. *)
Definition backCalculated (c : t) (error dt : number) : number :=
  let output := output c error dt in
  let saturatedOutput := saturate output in
  let integral := clampedIntegral c error dt in
  if negb (same output saturatedOutput)
     && same (signOf error) (signOf integral)
  then integral - error * dt * Num 0.5
  else integral.

(** The body of [calculate] once [error] is known. *)
Definition calculateWith (c : t) (error currentTime : number) : number * t :=
  let dt := dt c currentTime in
  (saturate (output c error dt),
   {| kp := kp c; ki := ki c; kd := kd c;
      integral := backCalculated c error dt;
      previousError := error;
      previousTime := currentTime;
      filteredDerivative := newFilteredDerivative c error dt;
      useAngleWrapping := useAngleWrapping c |}).

(** [calculate(setpoint, processVariable, currentTime)]. *)
Definition calculate (fuel : nat) (c : t)
  (setpoint processVariable currentTime : number) : option (number * t) :=
  match error fuel c setpoint processVariable with
  | Some error => Some (calculateWith c error currentTime)
  | None => None
  end.

End WithArithmetic.

(** A controller of the real-number model as a controller of this one. *)
Definition lift (c : PIDController.t) : t :=
  mk (Num (PIDController.kp c)) (Num (PIDController.ki c))
     (Num (PIDController.kd c)) (Num (PIDController.integral c))
     (Num (PIDController.previousError c)) (Num (PIDController.previousTime c))
     (Num (PIDController.filteredDerivative c))
     (PIDController.useAngleWrapping c).

End JsPID.

(** ** class InvertedPendulum, the basic variant, on numbers with special
    values *)

Module JsBasicPendulum.
Import Js.

Record t : Type := mk {
  massCart : number;
  massPendulum : number;
  length : number;
  gravity : number;
  friction : number;
  airResistance : number;
  cartPosition : number;
  cartVelocity : number;
  pendulumAngle : number;
  pendulumAngularVelocity : number
}.

Record deriv : Type := mkDeriv {
  dx : number;
  dv : number;
  dtheta : number;
  domega : number
}.

Definition maxCartPosition : number := Num 5.0.

(** [constructor(massCart = 1.0, massPendulum = 0.1, length = 1.0,
    initialAngle = 0.1)]. *)
Definition new (massCart massPendulum length initialAngle : option number) : t :=
  {| massCart := match massCart with Some m => m | None => Num 1.0 end;
     massPendulum := match massPendulum with Some m => m | None => Num 0.1 end;
     length := match length with Some l => l | None => Num 1.0 end;
     gravity := Num 9.81;
     friction := Num 0.1;
     airResistance := Num 0.0;
     cartPosition := Num 0;
     cartVelocity := Num 0;
     pendulumAngle := match initialAngle with Some a => a | None => Num 0.1 end;
     pendulumAngularVelocity := Num 0 |}.

Section WithArithmetic.

Variable A : arithmetic.

Local Notation "x + y" := (add A x y).
Local Notation "x - y" := (sub A x y).
Local Notation "x * y" := (mul A x y).
Local Notation "x / y" := (div A x y).

Definition stage (cur : number) (dt : number) (k : option deriv)
  (f : deriv -> number) : number :=
  cur + match k with Some k => f k * dt | None => Num 0 end.

(** [derivative(force, dt = 0, k?)]: no guard on the denominator. *)
Definition derivative (s : t) (force dt : number) (k : option deriv) : deriv :=
  let v := stage (cartVelocity s) dt k dv in
  let theta := stage (pendulumAngle s) dt k dtheta in
  let omega := stage (pendulumAngularVelocity s) dt k domega in
  let sinTheta := sin A theta in
  let cosTheta := cos A theta in
  let totalMass := massCart s + massPendulum s in
  let denominator := totalMass - massPendulum s * cosTheta * cosTheta in
  let cartAccel :=
    (force - friction s * v
     + massPendulum s * length s * omega * omega * sinTheta
     - massPendulum s * gravity s * sinTheta * cosTheta) / denominator in
  let angularAccel :=
    (force * cosTheta - friction s * v * cosTheta
     + totalMass * gravity s * sinTheta
     + massPendulum s * length s * omega * omega * sinTheta * cosTheta
     - airResistance s * omega * length s) / (length s * denominator) in
  {| dx := v; dv := cartAccel; dtheta := omega; domega := angularAccel |}.

Definition integrate (s : t) (force dt : number) : t :=
  let k1 := derivative s force (Num 0) None in
  let k2 := derivative s force (dt / Num 2) (Some k1) in
  let k3 := derivative s force (dt / Num 2) (Some k2) in
  let k4 := derivative s force dt (Some k3) in
  let rk (f : deriv -> number) :=
    (dt / Num 6) * (f k1 + Num 2 * f k2 + Num 2 * f k3 + f k4) in
  mk (massCart s) (massPendulum s) (length s) (gravity s) (friction s)
     (airResistance s)
     (cartPosition s + rk dx)
     (cartVelocity s + rk dv)
     (pendulumAngle s + rk dtheta)
     (pendulumAngularVelocity s + rk domega).

(** The cart beyond the boundary is put on it and stopped. *)
Definition limitPosition (s : t) : t :=
  if gt (abs (cartPosition s)) maxCartPosition then
    mk (massCart s) (massPendulum s) (length s) (gravity s) (friction s)
       (airResistance s)
       (signOf (cartPosition s) * maxCartPosition)
       (Num 0)
       (pendulumAngle s) (pendulumAngularVelocity s)
  else s.

(** The state [normalizeAngle] is applied to. *)
Definition afterPositionLimit (s : t) (force dt : number) : t :=
  limitPosition (integrate s force dt).

(** [update(force, dt)]: [None] when [normalizeAngle] has not returned
    within [fuel] iterations of either loop. *)
Definition update (fuel : nat) (s : t) (force dt : number) : option t :=
  let a := afterPositionLimit s force dt in
  match JsPendulum.normalizeAngle A fuel (pendulumAngle a) with
  | Some angle =>
      Some (mk (massCart a) (massPendulum a) (length a) (gravity a)
               (friction a) (airResistance a) (cartPosition a)
               (cartVelocity a) angle (pendulumAngularVelocity a))
  | None => None
  end.

End WithArithmetic.

(** A state of the basic model on real numbers as a state on numbers. *)
Definition lift (s : BasicPendulum.t) : t :=
  mk (Num (BasicPendulum.massCart s)) (Num (BasicPendulum.massPendulum s))
     (Num (BasicPendulum.length s)) (Num (BasicPendulum.gravity s))
     (Num (BasicPendulum.friction s)) (Num (BasicPendulum.airResistance s))
     (Num (BasicPendulum.cartPosition s)) (Num (BasicPendulum.cartVelocity s))
     (Num (BasicPendulum.pendulumAngle s))
     (Num (BasicPendulum.pendulumAngularVelocity s)).

Definition liftDeriv (k : BasicPendulum.deriv) : deriv :=
  mkDeriv (Num (BasicPendulum.dx k)) (Num (BasicPendulum.dv k))
          (Num (BasicPendulum.dtheta k)) (Num (BasicPendulum.domega k)).

End JsBasicPendulum.

(** ** Instances the statements on numbers with special values use *)

Module GuardCases.

(** An upright pendulum spinning at 25 rad/s. *)
Definition spinning : InvertedPendulum.t :=
  InvertedPendulum.mk 1.0 0.1 1.0 9.81 0.1 0.01 0 0 0 25 false.

(** [new InvertedPendulum(0, 0.1, 1.0, 0)]: a cart without mass. *)
Definition massless : InvertedPendulum.t :=
  InvertedPendulum.new (Some 0) (Some 0.1) None (Some 0).

(** [new InvertedPendulum(1.0, 0.1, 1.0, 4)]: built beyond [PI]. *)
Definition tilted : InvertedPendulum.t :=
  InvertedPendulum.new None None None (Some 4).

(** A basic pendulum whose cart has been placed at 6, moving at 3 m/s. *)
Definition pastWall : BasicPendulum.t :=
  BasicPendulum.mk 1.0 0.1 1.0 9.81 0.1 0.0 6 3 0 0.

End GuardCases.

(** ** Facts about the numeric helpers *)

Lemma sign_pos (x : R) : 0 < x -> sign x = 1.
Proof.
  intros H. unfold sign. destruct (Rlt_dec 0 x); [reflexivity | contradiction].
Qed.

Lemma sign_neg (x : R) : x < 0 -> sign x = -1.
Proof.
  intros H. unfold sign.
  destruct (Rlt_dec 0 x); [lra |].
  destruct (Rlt_dec x 0); [reflexivity | contradiction].
Qed.

Lemma sign_zero : sign 0 = 0.
Proof.
  unfold sign. destruct (Rlt_dec 0 0); [lra | reflexivity].
Qed.

Lemma Rabs_sign_scaled (x m : R) : x <> 0 -> 0 <= m -> Rabs (sign x * m) = m.
Proof.
  intros Hx Hm.
  destruct (Rtotal_order x 0) as [Hlt | [Heq | Hgt]]; [| contradiction |].
  - rewrite (sign_neg x Hlt).
    replace (-1 * m) with (- m) by ring.
    rewrite Rabs_Ropp. apply Rabs_pos_eq. assumption.
  - rewrite (sign_pos x Hgt), Rmult_1_l. apply Rabs_pos_eq. assumption.
Qed.

Lemma Rabs_bound (x b : R) : Rabs x <= b -> - b <= x <= b.
Proof.
  intros H. pose proof (Rle_abs x) as Hp. pose proof (Rle_abs (- x)) as Hn.
  rewrite Rabs_Ropp in Hn. lra.
Qed.

Lemma wrap_down_fixed (angle : R) : angle <= PI -> wrap_down angle = angle.
Proof.
  intros H. rewrite wrap_down_equation_1.
  destruct (Rgt_dec angle PI); [lra | reflexivity].
Qed.

Lemma wrap_up_fixed (angle : R) : - PI <= angle -> wrap_up angle = angle.
Proof.
  intros H. rewrite wrap_up_equation_1.
  destruct (Rlt_dec angle (- PI)); [lra | reflexivity].
Qed.

Lemma wrap_down_le (angle : R) : wrap_down angle <= PI.
Proof.
  funelim (wrap_down angle).
  - assumption.
  - lra.
Qed.

Lemma wrap_up_ge (angle : R) : - PI <= wrap_up angle.
Proof.
  funelim (wrap_up angle).
  - assumption.
  - lra.
Qed.

Lemma wrap_up_le (angle : R) : angle <= PI -> wrap_up angle <= PI.
Proof.
  funelim (wrap_up angle); intros Hle.
  - apply H. pose proof PI_RGT_0. lra.
  - assumption.
Qed.

Lemma wrap_down_gt (angle : R) : - PI < angle -> - PI < wrap_down angle.
Proof.
  funelim (wrap_down angle); intros Hgt.
  - apply H. lra.
  - assumption.
Qed.

Lemma normalizeAngle_range (angle : R) : - PI <= normalizeAngle angle <= PI.
Proof.
  unfold normalizeAngle. split.
  - apply wrap_up_ge.
  - apply wrap_up_le, wrap_down_le.
Qed.

Lemma normalizeAngle_fixed (angle : R) :
  - PI <= angle <= PI -> normalizeAngle angle = angle.
Proof.
  intros [Hlo Hhi]. unfold normalizeAngle.
  rewrite (wrap_down_fixed angle Hhi). apply wrap_up_fixed. assumption.
Qed.

(** ** Properties of InvertedPendulum *)

Module PendulumProofs.
Import InvertedPendulum PendulumCases.

(** The phases of [update] touch only the fields they are about. *)

Lemma update_pendulumAngle (s : t) (force dt : R) :
  pendulumAngle (update s force dt)
  = normalizeAngle
      (pendulumAngle (integrate (checkFailure s) (clampForce force) (clampDt dt))).
Proof.
  unfold update, beforePositionLimit, limitPosition.
  destruct (Rgt_dec _ _); reflexivity.
Qed.

Lemma update_hasFailed (s : t) (force dt : R) :
  hasFailed (update s force dt) = hasFailed (checkFailure s).
Proof.
  unfold update, beforePositionLimit, limitPosition.
  destruct (Rgt_dec _ _); reflexivity.
Qed.

Lemma checkFailure_hasFailed (s : t) :
  hasFailed (checkFailure s) = true
  <-> hasFailed s = true \/ Rabs (pendulumAngle s) > PI / 3.
Proof.
  unfold checkFailure, failureAngleThreshold.
  destruct (Rgt_dec _ _) as [Hgt | Hle]; simpl; split; intros H; auto.
  destruct H as [H | H]; [assumption | contradiction].
Qed.

(** With [sin theta = 0] (pendulum straight up or straight down), no
    angular velocity, and a force that exactly balances the cart's
    friction, every RK4 stage sees uniform motion. *)
Lemma derivative_cruise (s : t) (force dt : R) (k : option deriv) :
  pendulumAngularVelocity s = 0 ->
  sin (pendulumAngle s) = 0 ->
  force = friction s * cartVelocity s
          + 0.01 * cartVelocity s * Rabs (cartVelocity s) ->
  k = None \/ k = Some (cruise s) ->
  derivative s force dt k = cruise s.
Proof.
  intros Hw Hsin Hforce Hk.
  assert (Ev : stage (cartVelocity s) dt k dv = cartVelocity s).
  { unfold stage. destruct Hk as [-> | ->]; simpl; ring. }
  assert (Ew : stage (pendulumAngularVelocity s) dt k domega = 0).
  { unfold stage. rewrite Hw. destruct Hk as [-> | ->]; simpl; ring. }
  assert (Et : stage (pendulumAngle s) dt k dtheta = pendulumAngle s).
  { unfold stage. destruct Hk as [-> | ->]; simpl; ring. }
  unfold derivative. rewrite Ev, Ew, Et.
  destruct (Rlt_dec _ _); [reflexivity |].
  unfold cruise, cartAccel, angularAccel. rewrite Hsin, Rabs_R0, Hforce.
  f_equal; unfold Rdiv;
    match goal with |- ?n * / ?d = 0 => replace n with 0 by ring; ring end.
Qed.

Lemma integrate_cruise (s : t) (force dt : R) :
  pendulumAngularVelocity s = 0 ->
  sin (pendulumAngle s) = 0 ->
  force = friction s * cartVelocity s
          + 0.01 * cartVelocity s * Rabs (cartVelocity s) ->
  integrate s force dt
  = mk (massCart s) (massPendulum s) (length s) (gravity s) (friction s)
       (airResistance s) (cartPosition s + dt * cartVelocity s)
       (cartVelocity s) (pendulumAngle s) 0 (hasFailed s).
Proof.
  intros Hw Hsin Hforce. unfold integrate.
  rewrite (derivative_cruise s force 0 None Hw Hsin Hforce (or_introl eq_refl)).
  rewrite !(derivative_cruise s force (dt / 2) _ Hw Hsin Hforce (or_intror eq_refl)).
  rewrite (derivative_cruise s force dt _ Hw Hsin Hforce (or_intror eq_refl)).
  simpl. rewrite Hw. f_equal; field.
Qed.

Lemma clampForce_zero : clampForce 0 = 0.
Proof.
  unfold clampForce. rewrite Rmin_right by lra. apply Rmax_right. lra.
Qed.

Lemma hangingDown_update :
  pendulumAngle (update hangingDown 0 0.01) = - PI.
Proof.
  rewrite update_pendulumAngle, clampForce_zero.
  assert (Hc : checkFailure hangingDown
               = mk 1.0 0.1 1.0 9.81 0.1 0.01 0 0 (- PI) 0 true).
  { unfold checkFailure, hangingDown, new, failureAngleThreshold. simpl.
    destruct (Rgt_dec _ _) as [_ | Hn]; [reflexivity |].
    exfalso. apply Hn. rewrite Rabs_Ropp, Rabs_pos_eq; pose proof PI_RGT_0; lra. }
  rewrite Hc, integrate_cruise; simpl.
  - apply normalizeAngle_fixed. pose proof PI_RGT_0. lra.
  - reflexivity.
  - rewrite sin_neg, sin_PI. ring.
  - rewrite Rabs_R0. ring.
Qed.

(** C2 (counterexample): an unforced update of a pendulum hanging
    straight down leaves [pendulumAngle] at exactly [- PI], which is not
    strictly greater than [- PI]. *)
Lemma angle_wrap_open_fails :
  pendulumAngle (update hangingDown 0 0.01) = - PI
  /\ ~ (- PI < pendulumAngle (update hangingDown 0 0.01) <= PI).
Proof.
  rewrite hangingDown_update. split; [reflexivity | lra].
Qed.

Lemma update_cartPosition (s : t) (force dt : R) :
  cartPosition (update s force dt)
  = cartPosition (limitPosition (beforePositionLimit s force dt)).
Proof. reflexivity. Qed.

Lemma limitPosition_bound (s : t) :
  Rabs (cartPosition (limitPosition s)) <= maxCartPosition.
Proof.
  unfold limitPosition.
  destruct (Rgt_dec _ _) as [Hgt | Hle]; simpl; [| lra].
  unfold maxCartPosition in *.
  rewrite Rabs_sign_scaled; [lra | | lra].
  intros E. rewrite E, Rabs_R0 in Hgt. lra.
Qed.

Lemma checkFailure_upright (s : t) :
  Rabs (pendulumAngle s) <= PI / 3 -> checkFailure s = s.
Proof.
  intros H. unfold checkFailure, failureAngleThreshold.
  destruct (Rgt_dec _ _); [lra | reflexivity].
Qed.

Lemma limitVelocities_within (s : t) :
  Rabs (cartVelocity s) <= maxCartVelocity ->
  Rabs (pendulumAngularVelocity s) <= maxAngularVelocity ->
  limitVelocities s = s.
Proof.
  intros Hv Hw. unfold limitVelocities.
  destruct (Rgt_dec _ _); [lra |].
  destruct (Rgt_dec _ _); [lra |].
  destruct s; reflexivity.
Qed.

(** A force of 1.71 N balances the friction at 9 m/s, so in 0.02 s the
    cart moves 0.18 m and is at 5.17 before the position limit. *)
Lemma nearWall_before :
  beforePositionLimit nearWall 1.71 0.02
  = mk 1.0 0.1 1.0 9.81 0.1 0.01 (4.99 + 0.02 * 9) 9 0 0 false.
Proof.
  unfold beforePositionLimit.
  assert (Hf : clampForce 1.71 = 1.71).
  { unfold clampForce. rewrite Rmin_right by lra. apply Rmax_right. lra. }
  assert (Hd : clampDt 0.02 = 0.02).
  { unfold clampDt. apply Rmin_left. lra. }
  rewrite Hf, Hd, checkFailure_upright.
  - rewrite integrate_cruise; simpl.
    + apply limitVelocities_within; simpl.
      * rewrite Rabs_pos_eq; unfold maxCartVelocity; lra.
      * rewrite Rabs_R0. unfold maxAngularVelocity. lra.
    + reflexivity.
    + apply sin_0.
    + rewrite Rabs_pos_eq; lra.
  - simpl. rewrite Rabs_R0. pose proof PI_RGT_0. lra.
Qed.

(** *** The failure flag *)

Lemma perform_keeps_failed (s : t) (c : call) :
  isReset c = false -> hasFailed s = true -> hasFailed (perform s c) = true.
Proof.
  intros Hc Hs. destruct c; simpl in Hc; try discriminate Hc; cbn [perform].
  - rewrite update_hasFailed. apply checkFailure_hasFailed. left. assumption.
  - assumption.
  - assumption.
  - assumption.
  - assumption.
Qed.

Lemma run_keeps_failed (cs : list call) :
  forall s : t,
    forallb (fun c => negb (isReset c)) cs = true ->
    hasFailed s = true -> hasFailed (run s cs) = true.
Proof.
  induction cs as [| c cs IH]; intros s Hcs Hs; simpl in *.
  - assumption.
  - apply andb_prop in Hcs. destruct Hcs as [Hc Hcs].
    apply IH; [assumption |].
    apply perform_keeps_failed; [| assumption].
    destruct (isReset c); [discriminate | reflexivity].
Qed.

(** C4: [update] leaves [hasFailed] true exactly when it was already true
    or the angle it finds at the start of the call exceeds [PI / 3] in
    magnitude; no call other than [reset] turns a true flag false; hence
    the flag stays true over every sequence of [update], [setMasses],
    [setAirResistance], [getState] and [getParameters] calls; and [reset]
    clears it. *)
Theorem failure_sticky (s : t) :
  (forall force dt,
      hasFailed (update s force dt) = true
      <-> hasFailed s = true \/ Rabs (pendulumAngle s) > PI / 3)
  /\ (forall c,
         hasFailed s = true -> hasFailed (perform s c) = false ->
         isReset c = true)
  /\ (forall cs,
         forallb (fun c => negb (isReset c)) cs = true ->
         hasFailed s = true -> hasFailed (run s cs) = true)
  /\ (forall initialAngle, hasFailed (reset s initialAngle) = false).
Proof.
  split; [| split; [| split]].
  - intros force dt. rewrite update_hasFailed. apply checkFailure_hasFailed.
  - intros c Hs Hc. destruct (isReset c) eqn:E; [reflexivity |].
    rewrite (perform_keeps_failed s c E Hs) in Hc. discriminate.
  - intros cs Hcs Hs. apply run_keeps_failed; assumption.
  - intros initialAngle. reflexivity.
Qed.

(** C4 (witness): the pendulum built hanging down fails on its first
    update and is still failed after further updates, setter calls and
    reads. *)
Lemma failure_sticky_witness :
  hasFailed
    (run (update hangingDown 0 0.01)
         [SetMasses 2 0.2; GetState; Update 10 0.01; SetAirResistance 0.5;
          GetParameters; Update (-10) 0.02])
  = true.
Proof.
  apply (proj1 (proj2 (proj2 (failure_sticky (update hangingDown 0 0.01))))).
  - reflexivity.
  - apply (proj1 (failure_sticky hangingDown)). right.
    unfold hangingDown, new. simpl.
    rewrite Rabs_Ropp, Rabs_pos_eq; pose proof PI_RGT_0; lra.
Defined.

(** *** Reset *)

(** C6: after any sequence of [update] calls, [reset(theta0)] followed by
    [getState()] returns position 0, velocity 0, angle [theta0], angular
    velocity 0 and [hasFailed = false]. *)
Theorem reset_then_getState (s : t) (updates : list (R * R)) (theta0 : R) :
  getState
    (reset (run s (map (fun u => Update (fst u) (snd u)) updates)) (Some theta0))
  = {| st_cartPosition := 0;
       st_cartVelocity := 0;
       st_pendulumAngle := theta0;
       st_pendulumAngularVelocity := 0;
       st_hasFailed := false |}.
Proof.
  unfold getState, reset. reflexivity.
Qed.

(** *** The derivative function *)

(** C8: at the point [(v, theta, omega)] a call of [derivative]
    evaluates, if [|totalMass - massPendulum * cos^2 theta| < 0.001] the
    result is exactly [(v, 0, omega, 0)]; otherwise it is the quotient
    form of the equations of motion.  [derivative] is a total function:
    one of the two cases applies at every argument and no call fails. *)
Theorem derivative_cases (s : t) (force dt : R) (k : option deriv) :
  let v := cartVelocity s + match k with Some k => dv k * dt | None => 0 end in
  let theta :=
    pendulumAngle s + match k with Some k => dtheta k * dt | None => 0 end in
  let omega :=
    pendulumAngularVelocity s
    + match k with Some k => domega k * dt | None => 0 end in
  let totalMass := massCart s + massPendulum s in
  let den := totalMass - massPendulum s * (cos theta * cos theta) in
  let frictionForce := friction s * v + 0.01 * v * Rabs v in
  let angularDamping := airResistance s * omega + 0.001 * omega * Rabs omega in
  (Rabs den < 0.001 ->
   derivative s force dt k = {| dx := v; dv := 0; dtheta := omega; domega := 0 |})
  /\ (~ Rabs den < 0.001 ->
      derivative s force dt k
      = {| dx := v;
           dv := (force - frictionForce
                  + massPendulum s * length s * (omega * omega) * sin theta
                  - massPendulum s * gravity s * sin theta * cos theta) / den;
           dtheta := omega;
           domega := (force * cos theta - frictionForce * cos theta
                      + totalMass * gravity s * sin theta
                      + massPendulum s * length s * (omega * omega)
                        * sin theta * cos theta
                      - angularDamping * length s) / (length s * den) |})
  /\ (Rabs den < 0.001 \/ ~ Rabs den < 0.001).
Proof.
  intros v theta omega totalMass den frictionForce angularDamping.
  assert (Eden : denominator s theta = den).
  { unfold denominator, den, totalMass. ring. }
  assert (Ed : derivative s force dt k
               = if Rlt_dec (Rabs den) 0.001
                 then {| dx := v; dv := 0; dtheta := omega; domega := 0 |}
                 else {| dx := v; dv := cartAccel s force v theta omega;
                         dtheta := omega;
                         domega := angularAccel s force v theta omega |}).
  { unfold derivative. fold v theta omega. unfold stage.
    fold v theta omega. rewrite Eden. reflexivity. }
  split; [| split].
  - intros H. rewrite Ed. destruct (Rlt_dec _ _); [reflexivity | contradiction].
  - intros H. rewrite Ed. destruct (Rlt_dec _ _); [contradiction |].
    unfold cartAccel, angularAccel. rewrite Eden.
    fold frictionForce angularDamping totalMass.
    f_equal; f_equal; ring.
  - destruct (Rlt_dec (Rabs den) 0.001); [left | right]; assumption.
Qed.

(** C8 (witness): the default pendulum, standing upright and at rest, is
    far from the guard, and its first RK4 slope under a force of 1 N is
    the regular one. *)
Lemma derivative_cases_witness :
  derivative (new None None None (Some 0)) 1 0 None
  = {| dx := 0; dv := 1; dtheta := 0; domega := 1 |}.
Proof.
  pose proof (proj1 (proj2 (derivative_cases (new None None None (Some 0)) 1 0 None)))
    as H.
  simpl in H. rewrite !Rplus_0_r, sin_0, cos_0, Rabs_R0 in H.
  rewrite H.
  - f_equal; lra.
  - rewrite Rabs_pos_eq; lra.
Defined.

(** *** The divisors of [derivative] *)

Lemma denominator_sin (s : t) (theta : R) :
  denominator s theta = massCart s + massPendulum s * (sin theta * sin theta).
Proof.
  unfold denominator. pose proof (sin2_cos2 theta) as H. unfold Rsqr in H.
  replace (sin theta * sin theta) with (1 - cos theta * cos theta) by lra.
  ring.
Qed.

Lemma denominator_floor (s : t) (theta : R) :
  0 <= massPendulum s -> massCart s <= denominator s theta.
Proof.
  intros Hp. rewrite denominator_sin.
  pose proof (Rle_0_sqr (sin theta)) as Hs. unfold Rsqr in Hs.
  pose proof (Rmult_le_pos _ _ Hp Hs). lra.
Qed.

(** C10 (divergence): the masses of [zeroLength] meet both floors, yet
    the divisor [length * denominator] of its angular acceleration is 0 at
    every angle: the code divides by zero, and the divisors are not
    bounded away from zero. *)
Lemma zero_length_divisor :
  0.1 <= massCart zeroLength
  /\ 0.01 <= massPendulum zeroLength
  /\ (forall theta, length zeroLength * denominator zeroLength theta = 0)
  /\ ~ divisorsBoundedAway zeroLength.
Proof.
  unfold zeroLength, new; simpl.
  split; [lra | split; [lra | split]].
  - intros theta. ring.
  - intros [eps [Hpos Hall]]. destruct (Hall 0) as [_ H].
    simpl in H. rewrite Rmult_0_l, Rabs_R0 in H. lra.
Qed.

End PendulumProofs.

(** ** Properties of PIDController *)

Module PIDProofs.
Import PIDController PIDCases.

(** *** Clamps *)

Lemma clamp_range (lo hi x : R) :
  lo <= hi -> lo <= Rmax lo (Rmin hi x) <= hi.
Proof.
  intros H. split.
  - apply Rmax_l.
  - apply Rmax_lub; [assumption | apply Rmin_l].
Qed.

Lemma clamp_above (lo hi x : R) : lo <= hi -> hi <= x -> Rmax lo (Rmin hi x) = hi.
Proof.
  intros Hlh Hx. rewrite Rmin_left by assumption. apply Rmax_right. assumption.
Qed.

Lemma clamp_below (lo hi x : R) : lo <= hi -> x <= lo -> Rmax lo (Rmin hi x) = lo.
Proof.
  intros Hlh Hx. rewrite Rmin_right by lra. apply Rmax_left. assumption.
Qed.

Lemma clamp_inside (lo hi x : R) : lo <= x <= hi -> Rmax lo (Rmin hi x) = x.
Proof.
  intros [Hlo Hhi]. rewrite Rmin_right by assumption. apply Rmax_right. assumption.
Qed.

Lemma dt_range (c : t) (time : R) : 0.001 <= dt c time <= 0.1.
Proof.
  unfold dt. rewrite (Rmin_comm _ 0.1). apply clamp_range. lra.
Qed.

Lemma dt_first_call (c : t) (time : R) :
  previousTime c = 0 -> dt c time = 0.016.
Proof.
  intros H. unfold dt, rawDt.
  destruct (Req_dec_T _ _); [| contradiction].
  rewrite (Rmin_comm _ 0.1). apply clamp_inside. lra.
Qed.

Lemma dt_later_call (c : t) (time : R) :
  previousTime c <> 0 ->
  dt c time = Rmax 0.001 (Rmin (time - previousTime c) 0.1).
Proof.
  intros H. unfold dt, rawDt.
  destruct (Req_dec_T _ _); [contradiction | reflexivity].
Qed.

Lemma clampedIntegral_range (c : t) (e d : R) :
  -100 <= clampedIntegral c e d <= 100.
Proof.
  unfold clampedIntegral, integralMin, integralMax. apply clamp_range. lra.
Qed.

Lemma saturate_range (x : R) : -50 <= saturate x <= 50.
Proof.
  unfold saturate, outputMin, outputMax. apply clamp_range. lra.
Qed.

(** After the clamp [dt > 0] always holds, so the derivative block of
    [calculate] always runs. *)
Lemma derivative_filtered (c : t) (e d : R) :
  0.001 <= d ->
  derivative c e d
  = 0.1 * ((e - previousError c) / d) + (1 - 0.1) * filteredDerivative c.
Proof.
  intros Hd. unfold derivative, newFilteredDerivative, derivativeFilterAlpha.
  destruct (Rgt_dec d 0); [reflexivity | lra].
Qed.

Lemma newFilteredDerivative_filtered (c : t) (e d : R) :
  0.001 <= d ->
  newFilteredDerivative c e d
  = 0.1 * ((e - previousError c) / d) + (1 - 0.1) * filteredDerivative c.
Proof.
  intros Hd. unfold newFilteredDerivative, derivativeFilterAlpha.
  destruct (Rgt_dec d 0); [reflexivity | lra].
Qed.

(** *** The integral after the back-calculation *)

Lemma sign_one (x : R) : sign x = 1 -> 0 < x.
Proof.
  unfold sign. destruct (Rlt_dec 0 x); [intros _; assumption |].
  destruct (Rlt_dec x 0); intros H; lra.
Qed.

Lemma sign_minus_one (x : R) : sign x = -1 -> x < 0.
Proof.
  unfold sign. destruct (Rlt_dec 0 x); [intros H; lra |].
  destruct (Rlt_dec x 0); [intros _; assumption | intros H; lra].
Qed.

Lemma backCalculated_applied (c : t) (e d : R) :
  output c e d <> saturate (output c e d) ->
  sign e = sign (clampedIntegral c e d) ->
  backCalculated c e d = clampedIntegral c e d - e * d * 0.5.
Proof.
  intros Hsat Hsign. unfold backCalculated.
  destruct (Req_dec_T _ _); [contradiction |].
  destruct (Req_dec_T _ _); [reflexivity | contradiction].
Qed.

(** The back-calculation keeps the integral within its bounds as long as
    [|error * dt|] is at most 200, which every [|error| <= 2000] ensures. *)
Lemma backCalculated_range (c : t) (e d : R) :
  0 < d -> Rabs (e * d) <= 200 -> -100 <= backCalculated c e d <= 100.
Proof.
  intros Hd Hed. pose proof (clampedIntegral_range c e d) as Hci.
  unfold backCalculated.
  destruct (Req_dec_T _ _); [assumption |].
  destruct (Req_dec_T _ _) as [Hs | _]; [| assumption].
  apply Rabs_bound in Hed.
  destruct (Rtotal_order e 0) as [Hlt | [Heq | Hgt]].
  - rewrite (sign_neg e Hlt) in Hs. symmetry in Hs. apply sign_minus_one in Hs.
    assert (e * d < 0) by nra. lra.
  - subst e. lra.
  - rewrite (sign_pos e Hgt) in Hs. symmetry in Hs. apply sign_one in Hs.
    assert (0 < e * d) by nra. lra.
Qed.

Lemma integral_bounded_small_error (c : t) (sp pv time : R) :
  Rabs (error c sp pv) <= 2000 ->
  -100 <= integral (snd (calculate c sp pv time)) <= 100.
Proof.
  intros He. simpl. pose proof (dt_range c time) as Hd.
  apply backCalculated_range; [lra |].
  rewrite Rabs_mult, (Rabs_pos_eq (dt c time)) by lra.
  pose proof (Rabs_pos (error c sp pv)). nra.
Qed.

(** C1 (failing input): on its first call, with an error of 50000, the
    integral is clamped to 100 and the back-calculation then takes
    [50000 * 0.016 * 0.5 = 400] off it, leaving -300, outside the bounds
    [integralMin = -100] and [integralMax = 100]. *)
Theorem integral_leaves_bounds :
  integral (calculateAll pageController [mkSample 50000 0 1]) = -300
  /\ ~ (-100 <= integral (calculateAll pageController [mkSample 50000 0 1]) <= 100).
Proof.
  assert (He : error pageController 50000 0 = 50000).
  { unfold error, pageController, new. simpl. lra. }
  assert (Hd : dt pageController 1 = 0.016).
  { apply dt_first_call. reflexivity. }
  assert (Hi : clampedIntegral pageController 50000 0.016 = 100).
  { unfold clampedIntegral, integralMin, integralMax, pageController, new. simpl.
    apply clamp_above; lra. }
  assert (Ho : output pageController 50000 0.016 > 50).
  { unfold output, P, I, D. rewrite Hi, derivative_filtered by lra.
    unfold pageController, new. simpl. lra. }
  assert (E : integral (calculateAll pageController [mkSample 50000 0 1]) = -300).
  { unfold calculateAll. simpl. rewrite He, Hd.
    rewrite backCalculated_applied.
    - rewrite Hi. lra.
    - pose proof (saturate_range (output pageController 50000 0.016)). lra.
    - rewrite Hi, !sign_pos by lra. reflexivity. }
  rewrite E. split; [reflexivity | lra].
Qed.

(** *** The returned value *)

Lemma calculate_fst (c : t) (sp pv time : R) :
  fst (calculate c sp pv time)
  = saturate (output c (error c sp pv) (dt c time)).
Proof. reflexivity. Qed.

Lemma cancelling_returns_zero (sp pv time : R) :
  fst (calculate cancelling sp pv time) = 0.
Proof.
  rewrite calculate_fst.
  assert (Hd : dt cancelling time = 0.016) by (apply dt_first_call; reflexivity).
  rewrite Hd. unfold output, P, I, D. rewrite derivative_filtered by lra.
  unfold cancelling, new; simpl.
  set (e := sp - pv).
  replace (1000 * e + 0 * clampedIntegral _ _ _
           + -160 * (0.1 * ((e - 0) / 0.016) + (1 - 0.1) * 0))
    with 0 by lra.
  unfold saturate, outputMin, outputMax. apply clamp_inside. lra.
Qed.


(** *** The time step *)

(** C7: the time step of a call is 0.016 when [previousTime] is 0 and
    [currentTime - previousTime] otherwise, clamped into [[0.001, 0.1]] in
    both cases; and this clamped value is the one the integral
    accumulation and the raw derivative of that call use. *)
Theorem time_step (c : t) (sp pv time : R) :
  let d := dt c time in
  let e := error c sp pv in
  let elapsed := time - previousTime c in
  (previousTime c = 0 -> d = Rmax 0.001 (Rmin 0.016 0.1) /\ d = 0.016)
  /\ (previousTime c <> 0 ->
      d = Rmax 0.001 (Rmin elapsed 0.1)
      /\ (elapsed <= 0.001 -> d = 0.001)
      /\ (0.001 <= elapsed <= 0.1 -> d = elapsed)
      /\ (0.1 <= elapsed -> d = 0.1))
  /\ 0.001 <= d <= 0.1
  /\ clampedIntegral c e d = Rmax (-100) (Rmin 100 (integral c + e * d))
  /\ filteredDerivative (snd (calculate c sp pv time))
     = 0.1 * ((e - previousError c) / d) + (1 - 0.1) * filteredDerivative c
  /\ fst (calculate c sp pv time)
     = saturate
         (kp c * e
          + ki c * Rmax (-100) (Rmin 100 (integral c + e * d))
          + kd c * (0.1 * ((e - previousError c) / d)
                    + (1 - 0.1) * filteredDerivative c)).
Proof.
  intros d e elapsed. pose proof (dt_range c time) as Hd. fold d in Hd.
  split; [| split; [| split; [| split; [| split]]]].
  - intros H. unfold d. rewrite (dt_first_call c time H).
    split; [| reflexivity].
    rewrite (Rmin_comm _ 0.1). symmetry. apply clamp_inside. lra.
  - intros H. unfold d. rewrite (dt_later_call c time H). fold elapsed.
    rewrite (Rmin_comm _ 0.1).
    split; [reflexivity |]. split; [| split]; intros Hel.
    + apply clamp_below; lra.
    + apply clamp_inside; lra.
    + apply clamp_above; lra.
  - assumption.
  - reflexivity.
  - simpl. fold e d. apply newFilteredDerivative_filtered. lra.
  - rewrite calculate_fst. fold e d.
    unfold output, P, I, D. rewrite derivative_filtered by lra. reflexivity.
Qed.

(** C7 (witness): a first call at time 1 uses 0.016; a second call half a
    second later uses the upper clamp 0.1. *)
Lemma time_step_witness :
  dt pageController 1 = 0.016
  /\ dt (snd (calculate pageController 0 0.1 1)) 1.5 = 0.1.
Proof.
  split.
  - apply (proj1 (time_step pageController 0 0.1 1)). reflexivity.
  - apply (proj1 (proj2 (time_step (snd (calculate pageController 0 0.1 1)) 0 0 1.5))).
    + simpl. lra.
    + simpl. lra.
Defined.

End PIDProofs.

(** ** Reset and the configured parameters *)

(** C9: [reset] of either class leaves every configured parameter as it
    was and writes only the state fields: the model keeps its masses,
    length, gravity, friction and air resistance, and the controller keeps
    its three gains and its angle-wrapping mode. *)
Theorem reset_keeps_parameters
  (s : InvertedPendulum.t) (initialAngle : option R) (c : PIDController.t) :
  let s' := InvertedPendulum.reset s initialAngle in
  let c' := PIDController.reset c in
  (InvertedPendulum.massCart s' = InvertedPendulum.massCart s
   /\ InvertedPendulum.massPendulum s' = InvertedPendulum.massPendulum s
   /\ InvertedPendulum.length s' = InvertedPendulum.length s
   /\ InvertedPendulum.gravity s' = InvertedPendulum.gravity s
   /\ InvertedPendulum.friction s' = InvertedPendulum.friction s
   /\ InvertedPendulum.airResistance s' = InvertedPendulum.airResistance s)
  /\ InvertedPendulum.getParameters s' = InvertedPendulum.getParameters s
  /\ (PIDController.kp c' = PIDController.kp c
      /\ PIDController.ki c' = PIDController.ki c
      /\ PIDController.kd c' = PIDController.kd c
      /\ PIDController.useAngleWrapping c' = PIDController.useAngleWrapping c)
  /\ s' = InvertedPendulum.mk
            (InvertedPendulum.massCart s) (InvertedPendulum.massPendulum s)
            (InvertedPendulum.length s) (InvertedPendulum.gravity s)
            (InvertedPendulum.friction s) (InvertedPendulum.airResistance s)
            0 0 (match initialAngle with Some a => a | None => 0.1 end) 0 false
  /\ c' = PIDController.mk
            (PIDController.kp c) (PIDController.ki c) (PIDController.kd c)
            0 0 0 0 (PIDController.useAngleWrapping c).
Proof.
  intros s' c'. unfold s', c', InvertedPendulum.reset, PIDController.reset.
  simpl. repeat split.
Qed.

(** ** Further properties of [normalizeAngle] *)

Module AngleProofs.

Lemma sin_turn_back (x : R) : sin (x - 2 * PI) = sin x.
Proof.
  rewrite <- (sin_period (x - 2 * PI) 1). f_equal. simpl. ring.
Qed.

Lemma cos_turn_back (x : R) : cos (x - 2 * PI) = cos x.
Proof.
  rewrite <- (cos_period (x - 2 * PI) 1). f_equal. simpl. ring.
Qed.

Lemma sin_turn_on (x : R) : sin (x + 2 * PI) = sin x.
Proof.
  rewrite <- (sin_period x 1). f_equal. simpl. ring.
Qed.

Lemma cos_turn_on (x : R) : cos (x + 2 * PI) = cos x.
Proof.
  rewrite <- (cos_period x 1). f_equal. simpl. ring.
Qed.

Lemma wrap_down_turns (angle : R) :
  exists k : Z, wrap_down angle = angle + IZR k * (2 * PI).
Proof.
  funelim (wrap_down angle).
  - destruct H as [k Hk]. exists (k - 1)%Z. rewrite Hk, minus_IZR. ring.
  - exists 0%Z. ring.
Qed.

Lemma wrap_up_turns (angle : R) :
  exists k : Z, wrap_up angle = angle + IZR k * (2 * PI).
Proof.
  funelim (wrap_up angle).
  - destruct H as [k Hk]. exists (k + 1)%Z. rewrite Hk, plus_IZR. ring.
  - exists 0%Z. ring.
Qed.

Lemma wrap_down_trig (angle : R) :
  sin (wrap_down angle) = sin angle /\ cos (wrap_down angle) = cos angle.
Proof.
  funelim (wrap_down angle).
  - destruct H as [Hs Hc]. rewrite Hs, Hc, sin_turn_back, cos_turn_back.
    split; reflexivity.
  - split; reflexivity.
Qed.

Lemma wrap_up_trig (angle : R) :
  sin (wrap_up angle) = sin angle /\ cos (wrap_up angle) = cos angle.
Proof.
  funelim (wrap_up angle).
  - destruct H as [Hs Hc]. rewrite Hs, Hc, sin_turn_on, cos_turn_on.
    split; reflexivity.
  - split; reflexivity.
Qed.


(** X2: the angles [normalizeAngle] leaves alone are exactly those from
    [- PI] to [PI], and normalizing twice is the same as normalizing
    once. *)
Theorem normalizeAngle_idempotent (angle : R) :
  (normalizeAngle angle = angle <-> - PI <= angle <= PI)
  /\ normalizeAngle (normalizeAngle angle) = normalizeAngle angle.
Proof.
  split; [split |].
  - intros H. rewrite <- H. apply normalizeAngle_range.
  - apply normalizeAngle_fixed.
  - apply normalizeAngle_fixed, normalizeAngle_range.
Qed.

Lemma wrap_down_step (angle : R) :
  angle > PI -> wrap_down angle = wrap_down (angle - 2 * PI).
Proof.
  intros H. rewrite wrap_down_equation_1.
  destruct (Rgt_dec angle PI); [reflexivity | contradiction].
Qed.

Lemma wrap_down_opp (angle : R) : wrap_down (- angle) = - wrap_up angle.
Proof.
  funelim (wrap_up angle).
  - rewrite wrap_down_step by lra.
    replace (- angle - 2 * PI) with (- (angle + 2 * PI)) by ring.
    assumption.
  - rewrite wrap_down_fixed by lra. reflexivity.
Qed.

Lemma wrap_up_opp (angle : R) : wrap_up (- angle) = - wrap_down angle.
Proof.
  rewrite <- (Ropp_involutive angle) at 2.
  rewrite wrap_down_opp. ring.
Qed.

Lemma wrap_commute (angle : R) :
  wrap_down (wrap_up angle) = wrap_up (wrap_down angle).
Proof.
  pose proof PI_RGT_0 as Hpi.
  destruct (Rle_lt_dec angle PI) as [Hle | Hgt].
  - rewrite (wrap_down_fixed angle Hle).
    apply wrap_down_fixed, wrap_up_le. assumption.
  - rewrite (wrap_up_fixed angle) by lra.
    symmetry. apply wrap_up_fixed.
    pose proof (wrap_down_gt angle). lra.
Qed.

Lemma wrap_opp (angle : R) :
  wrap_up (wrap_down (- angle)) = - wrap_up (wrap_down angle).
Proof.
  rewrite wrap_down_opp, wrap_up_opp, wrap_commute. reflexivity.
Qed.

(** X3: [normalizeAngle] is odd: the normalized opposite of an angle is
    the opposite of the normalized angle. *)
Theorem normalizeAngle_odd (angle : R) :
  normalizeAngle (- angle) = - normalizeAngle angle.
Proof.
  unfold normalizeAngle. apply wrap_opp.
Qed.

End AngleProofs.

(** ** Further properties of InvertedPendulum *)

Module PendulumExtra.
Import InvertedPendulum PendulumCases CallCases.

(** *** A step of length zero *)

(** A step of length zero integrates nothing. *)
Lemma integrate_zero_dt (s : t) (force : R) : integrate s force 0 = s.
Proof.
  unfold integrate. destruct s. cbv zeta.
  cbn [massCart massPendulum length gravity friction airResistance
       cartPosition cartVelocity pendulumAngle pendulumAngularVelocity hasFailed].
  f_equal; unfold Rdiv; ring.
Qed.

Lemma clampDt_zero : clampDt 0 = 0.
Proof. unfold clampDt. apply Rmin_left. lra. Qed.

(** *** Saturation of the inputs *)

Lemma clampForce_idempotent (force : R) :
  clampForce (clampForce force) = clampForce force.
Proof.
  unfold clampForce. apply PIDProofs.clamp_inside.
  apply PIDProofs.clamp_range. lra.
Qed.

Lemma clampDt_idempotent (dt : R) : clampDt (clampDt dt) = clampDt dt.
Proof.
  unfold clampDt. apply Rmin_left. apply Rmin_r.
Qed.

(** X5: [update] sees its arguments only through their clamps: a force
    of 50 N or more acts as 50 N, a force of -50 N or less as -50 N, and
    a time step of 0.02 s or more as 0.02 s. *)
Theorem update_saturates_inputs (s : t) (force dt : R) :
  update s force dt
  = update s (Rmax (-50) (Rmin 50 force)) (Rmin dt 0.02)
  /\ (50 <= force -> update s force dt = update s 50 dt)
  /\ (force <= -50 -> update s force dt = update s (-50) dt)
  /\ (0.02 <= dt -> update s force dt = update s force 0.02).
Proof.
  assert (Hgen : forall f f' d d',
             clampForce f = clampForce f' -> clampDt d = clampDt d' ->
             update s f d = update s f' d').
  { intros f f' d d' Hf Hd. unfold update, beforePositionLimit.
    rewrite Hf, Hd. reflexivity. }
  assert (Hc : forall f, clampForce f = Rmax (-50) (Rmin 50 f)).
  { intros f. unfold clampForce. f_equal; [lra | f_equal; lra]. }
  split; [| split; [| split]].
  - apply Hgen.
    + rewrite <- Hc. symmetry. apply clampForce_idempotent.
    + symmetry. apply clampDt_idempotent.
  - intros H. apply Hgen; [| reflexivity].
    rewrite !Hc, !PIDProofs.clamp_above; lra.
  - intros H. apply Hgen; [| reflexivity].
    rewrite !Hc, !PIDProofs.clamp_below; lra.
  - intros H. apply Hgen; [reflexivity |].
    unfold clampDt. rewrite Rmin_right by assumption.
    rewrite Rmin_left; lra.
Qed.

(** X5 (witness): on the default pendulum a force of 80 N over 0.05 s is
    a force of 50 N over 0.02 s. *)
Lemma update_saturates_inputs_witness :
  update (new None None None None) 80 0.05
  = update (new None None None None) 50 0.02.
Proof.
  rewrite (proj1 (proj2 (update_saturates_inputs _ 80 0.05))) by lra.
  apply (proj2 (proj2 (proj2 (update_saturates_inputs _ 50 0.05)))). lra.
Defined.

(** *** The physical parameters over a run *)

Lemma update_parameters (s : t) (force dt : R) :
  massCart (update s force dt) = massCart s
  /\ massPendulum (update s force dt) = massPendulum s
  /\ length (update s force dt) = length s
  /\ gravity (update s force dt) = gravity s
  /\ friction (update s force dt) = friction s
  /\ airResistance (update s force dt) = airResistance s.
Proof.
  unfold update, beforePositionLimit, limitPosition, checkFailure.
  destruct (Rgt_dec _ _); destruct (Rgt_dec _ _); simpl; repeat split.
Qed.

Lemma perform_fixed_parameters (s : t) (c : call) :
  length (perform s c) = length s
  /\ gravity (perform s c) = gravity s
  /\ friction (perform s c) = friction s.
Proof.
  destruct c; cbn [perform]; try (repeat split; reflexivity).
  destruct (update_parameters s force dt) as (_ & _ & Hl & Hg & Hf & _).
  repeat split; assumption.
Qed.

Lemma perform_kept_parameters (s : t) (c : call) :
  isSetter c = false -> getParameters (perform s c) = getParameters s.
Proof.
  intros Hc. destruct c; simpl in Hc; try discriminate Hc; cbn [perform];
    try reflexivity.
  destruct (update_parameters s force dt) as (Hc' & Hp & _ & _ & _ & Ha).
  unfold getParameters. rewrite Hc', Hp, Ha. reflexivity.
Qed.

(** X6: no sequence of calls changes [length], [gravity] or [friction];
    and a sequence without [setMasses] and [setAirResistance], whatever
    updates and resets it holds, leaves what [getParameters] returns
    unchanged. *)
Theorem parameters_over_run (cs : list call) :
  forall s : t,
    (length (run s cs) = length s
     /\ gravity (run s cs) = gravity s
     /\ friction (run s cs) = friction s)
    /\ (forallb (fun c => negb (isSetter c)) cs = true ->
        getParameters (run s cs) = getParameters s).
Proof.
  induction cs as [| c cs IH]; intros s; simpl.
  - repeat split.
  - destruct (IH (perform s c)) as [(Hl & Hg & Hf) Hkeep].
    destruct (perform_fixed_parameters s c) as (Hl' & Hg' & Hf').
    split.
    + rewrite Hl, Hg, Hf. repeat split; assumption.
    + intros Hcs. apply andb_prop in Hcs. destruct Hcs as [Hc Hcs].
      rewrite (Hkeep Hcs). apply perform_kept_parameters.
      destruct (isSetter c); [discriminate | reflexivity].
Qed.

(** X6 (witness): updates, a reset and reads leave the default
    parameters in place. *)
Lemma parameters_over_run_witness :
  getParameters
    (run (new None None None None)
         [Update 10 0.01; GetState; Reset (Some 0.2); Update (-3) 0.02])
  = {| pr_massCart := 1.0; pr_massPendulum := 0.1; pr_airResistance := 0.01 |}.
Proof.
  rewrite (proj2 (parameters_over_run _ _)); reflexivity.
Defined.

(** *** The setters *)

(** X9: [setMasses] stores a cart mass of at least 0.1 and a pendulum
    mass of at least 0.01 as given and raises smaller ones to these
    floors; [setAirResistance] stores a non-negative value as given and
    raises a negative one to 0.  Neither touches the state [getState]
    returns, and a later [setMasses] overrides an earlier one. *)
Theorem setters_round_trip (s : t) (cartMass pendulumMass resistance : R) :
  (0.1 <= cartMass -> 0.01 <= pendulumMass ->
   getParameters (setMasses s cartMass pendulumMass)
   = {| pr_massCart := cartMass;
        pr_massPendulum := pendulumMass;
        pr_airResistance := airResistance s |})
  /\ (cartMass <= 0.1 -> massCart (setMasses s cartMass pendulumMass) = 0.1)
  /\ (pendulumMass <= 0.01 ->
      massPendulum (setMasses s cartMass pendulumMass) = 0.01)
  /\ (0 <= resistance ->
      getParameters (setAirResistance s resistance)
      = {| pr_massCart := massCart s;
           pr_massPendulum := massPendulum s;
           pr_airResistance := resistance |})
  /\ (resistance <= 0 -> airResistance (setAirResistance s resistance) = 0)
  /\ getState (setMasses s cartMass pendulumMass) = getState s
  /\ getState (setAirResistance s resistance) = getState s
  /\ (forall cartMass' pendulumMass',
         setMasses (setMasses s cartMass pendulumMass) cartMass' pendulumMass'
         = setMasses s cartMass' pendulumMass').
Proof.
  unfold getParameters, getState, setMasses, setAirResistance; simpl.
  repeat split; intros.
  - rewrite !Rmax_right by assumption. reflexivity.
  - apply Rmax_left. assumption.
  - apply Rmax_left. assumption.
  - rewrite Rmax_right by assumption. reflexivity.
  - apply Rmax_left. assumption.
Qed.

(** X9 (witness): the masses 2 and 0.5 are stored as given. *)
Lemma setters_round_trip_witness :
  getParameters (setMasses (new None None None None) 2 0.5)
  = {| pr_massCart := 2; pr_massPendulum := 0.5; pr_airResistance := 0.01 |}.
Proof.
  apply (proj1 (setters_round_trip (new None None None None) 2 0.5 0)); lra.
Defined.

End PendulumExtra.

(** ** Properties of the basic variants *)

Module BasicProofs.

Lemma enhanced_denominator (s : BasicPendulum.t) (theta : R) :
  InvertedPendulum.denominator (BasicPendulum.enhanced s) theta
  = BasicPendulum.denominator s theta.
Proof. reflexivity. Qed.

(** X12: on the same parameters and state, and where the guard of the
    enhanced [derivative] does not fire, the first RK4 slope of the
    enhanced variant is that of the basic variant less the quadratic drag
    terms: [0.01 * v * |v| / denominator] on the cart acceleration and
    [(0.01 * v * |v| * cos theta + 0.001 * omega * |omega| * length) /
    (length * denominator)] on the angular acceleration.  At rest the two
    variants agree. *)
Theorem quadratic_drag_difference (s : BasicPendulum.t) (force : R) :
  let v := BasicPendulum.cartVelocity s in
  let theta := BasicPendulum.pendulumAngle s in
  let omega := BasicPendulum.pendulumAngularVelocity s in
  let den := BasicPendulum.denominator s theta in
  let basic := BasicPendulum.derivative s force 0 None in
  let enhanced :=
    InvertedPendulum.derivative (BasicPendulum.enhanced s) force 0 None in
  ~ Rabs den < 0.001 ->
  BasicPendulum.length s <> 0 ->
  InvertedPendulum.dx enhanced = BasicPendulum.dx basic
  /\ InvertedPendulum.dtheta enhanced = BasicPendulum.dtheta basic
  /\ InvertedPendulum.dv enhanced
     = BasicPendulum.dv basic - 0.01 * v * Rabs v / den
  /\ InvertedPendulum.domega enhanced
     = BasicPendulum.domega basic
       - (0.01 * v * Rabs v * cos theta
          + 0.001 * omega * Rabs omega * BasicPendulum.length s)
         / (BasicPendulum.length s * den)
  /\ (v = 0 -> omega = 0 ->
      InvertedPendulum.dv enhanced = BasicPendulum.dv basic
      /\ InvertedPendulum.domega enhanced = BasicPendulum.domega basic).
Proof.
  intros v theta omega den basic enhanced Hguard Hlen.
  assert (Hden : den <> 0).
  { intros E. apply Hguard. rewrite E, Rabs_R0. lra. }
  assert (Ev : BasicPendulum.stage v 0 None BasicPendulum.dv = v)
    by (unfold BasicPendulum.stage; ring).
  assert (Et : BasicPendulum.stage theta 0 None BasicPendulum.dtheta = theta)
    by (unfold BasicPendulum.stage; ring).
  assert (Ew : BasicPendulum.stage omega 0 None BasicPendulum.domega = omega)
    by (unfold BasicPendulum.stage; ring).
  assert (Ev' : InvertedPendulum.stage v 0 None InvertedPendulum.dv = v)
    by (unfold InvertedPendulum.stage; ring).
  assert (Et' : InvertedPendulum.stage theta 0 None InvertedPendulum.dtheta = theta)
    by (unfold InvertedPendulum.stage; ring).
  assert (Ew' : InvertedPendulum.stage omega 0 None InvertedPendulum.domega = omega)
    by (unfold InvertedPendulum.stage; ring).
  assert (Eb : basic
               = BasicPendulum.mkDeriv v
                   (BasicPendulum.cartAccel s force v theta omega) omega
                   (BasicPendulum.angularAccel s force v theta omega)).
  { unfold basic, BasicPendulum.derivative. fold v theta omega.
    rewrite Ev, Et, Ew. reflexivity. }
  assert (Ee : enhanced
               = InvertedPendulum.mkDeriv v
                   (InvertedPendulum.cartAccel (BasicPendulum.enhanced s)
                      force v theta omega) omega
                   (InvertedPendulum.angularAccel (BasicPendulum.enhanced s)
                      force v theta omega)).
  { unfold enhanced, InvertedPendulum.derivative.
    cbn [BasicPendulum.enhanced InvertedPendulum.cartVelocity
         InvertedPendulum.pendulumAngle InvertedPendulum.pendulumAngularVelocity].
    fold v theta omega. rewrite Ev', Et', Ew'.
    change (InvertedPendulum.denominator
              (InvertedPendulum.mk _ _ _ _ _ _ _ _ _ _ _) theta)
      with (InvertedPendulum.denominator (BasicPendulum.enhanced s) theta).
    rewrite enhanced_denominator. fold den.
    destruct (Rlt_dec _ _); [contradiction | reflexivity]. }
  assert (Hdv : InvertedPendulum.cartAccel (BasicPendulum.enhanced s) force v theta omega
                = BasicPendulum.cartAccel s force v theta omega
                  - 0.01 * v * Rabs v / den).
  { unfold InvertedPendulum.cartAccel, BasicPendulum.cartAccel.
    rewrite enhanced_denominator. fold den. simpl. field. assumption. }
  assert (Hdw : InvertedPendulum.angularAccel (BasicPendulum.enhanced s) force v theta omega
                = BasicPendulum.angularAccel s force v theta omega
                  - (0.01 * v * Rabs v * cos theta
                     + 0.001 * omega * Rabs omega * BasicPendulum.length s)
                    / (BasicPendulum.length s * den)).
  { unfold InvertedPendulum.angularAccel, BasicPendulum.angularAccel.
    rewrite enhanced_denominator. fold den. simpl. field. split; assumption. }
  rewrite Eb, Ee. cbn [InvertedPendulum.dx InvertedPendulum.dv
                       InvertedPendulum.dtheta InvertedPendulum.domega
                       BasicPendulum.dx BasicPendulum.dv
                       BasicPendulum.dtheta BasicPendulum.domega].
  split; [reflexivity |]. split; [reflexivity |].
  split; [assumption |]. split; [assumption |].
  intros Hv Hw. rewrite Hdv, Hdw, Hv, Hw, Rabs_R0. unfold Rdiv. split; ring.
Qed.

(** X12 (witness): the default basic pendulum, at rest, has the same first
    slope in both variants. *)
Lemma quadratic_drag_difference_witness :
  let s := BasicPendulum.new None None None None in
  InvertedPendulum.dv
    (InvertedPendulum.derivative (BasicPendulum.enhanced s) 10 0 None)
  = BasicPendulum.dv (BasicPendulum.derivative s 10 0 None).
Proof.
  intros s.
  apply (quadratic_drag_difference s 10); try reflexivity.
  - pose proof (PendulumProofs.denominator_floor (BasicPendulum.enhanced s) 0.1)
      as H.
    rewrite enhanced_denominator in H.
    change (BasicPendulum.pendulumAngle s) with 0.1.
    unfold s in *; simpl in H.
    rewrite Rabs_pos_eq; lra.
  - unfold s; simpl. lra.
Defined.

(** *** The basic controller *)

Lemma basic_integral_after (c : BasicPID.t) (sp pv time : R) :
  -100 <= BasicPID.integral (snd (BasicPID.calculate c sp pv time)) <= 100.
Proof.
  simpl. unfold BasicPID.clampedIntegral. apply PIDProofs.clamp_range. lra.
Qed.

Lemma basic_integral_run (samples : list PIDController.sample) :
  forall c : BasicPID.t,
    -100 <= BasicPID.integral c <= 100 ->
    -100 <= BasicPID.integral (BasicPID.calculateAll c samples) <= 100.
Proof.
  induction samples as [| x samples IH]; intros c Hc.
  - assumption.
  - apply IH. apply basic_integral_after.
Qed.





End BasicProofs.

(** ** Further properties of PIDController *)

Module PIDExtra.
Import PIDController PIDCases PIDVariants.

(** *** Against the basic controller *)

(** X15: with [kd = 0], angle wrapping off and a time step the clamp
    leaves alone (a first call, or an elapsed time between 0.001 and 0.1),
    the enhanced controller returns the value of the basic controller in
    the same state clamped into [[-50, 50]]; when that value is already
    within [[-50, 50]] both return it and end with the same integral. *)
Theorem enhanced_clamps_basic (c : t) (sp pv time : R) :
  let plain := fst (BasicPID.calculate (basic c) sp pv time) in
  kd c = 0 ->
  useAngleWrapping c = false ->
  previousTime c = 0 \/ 0.001 <= time - previousTime c <= 0.1 ->
  fst (calculate c sp pv time) = Rmax (-50) (Rmin 50 plain)
  /\ (-50 <= plain <= 50 ->
      fst (calculate c sp pv time) = plain
      /\ integral (snd (calculate c sp pv time))
         = BasicPID.integral (snd (BasicPID.calculate (basic c) sp pv time))).
Proof.
  intros plain Hkd Hwrap Hclock.
  assert (He : error c sp pv = sp - pv).
  { unfold error. rewrite Hwrap. reflexivity. }
  assert (Hd : dt c time = BasicPID.dt (basic c) time).
  { unfold BasicPID.dt, basic; simpl.
    destruct Hclock as [H0 | Hin].
    - rewrite (PIDProofs.dt_first_call c time H0).
      destruct (Req_dec_T _ _); [reflexivity | contradiction].
    - unfold dt, rawDt. destruct (Req_dec_T _ _).
      + rewrite (Rmin_comm _ 0.1). apply PIDProofs.clamp_inside. lra.
      + rewrite (Rmin_comm _ 0.1). apply PIDProofs.clamp_inside. lra. }
  assert (Hi : clampedIntegral c (sp - pv) (dt c time)
               = BasicPID.clampedIntegral (basic c) (sp - pv)
                   (BasicPID.dt (basic c) time)).
  { rewrite Hd. reflexivity. }
  assert (Ho : output c (sp - pv) (dt c time) = plain).
  { unfold output, P, I, D, plain, BasicPID.calculate; simpl.
    rewrite Hi, Hkd. simpl. ring. }
  split.
  - rewrite PIDProofs.calculate_fst, He, Ho. reflexivity.
  - intros Hin. split.
    + rewrite PIDProofs.calculate_fst, He, Ho.
      unfold saturate, outputMin, outputMax.
      apply PIDProofs.clamp_inside. assumption.
    + simpl. rewrite He. unfold backCalculated. rewrite Ho.
      destruct (Req_dec_T _ _) as [_ | Hne].
      * rewrite Hi. reflexivity.
      * exfalso. apply Hne. symmetry. unfold saturate, outputMin, outputMax.
        apply PIDProofs.clamp_inside. assumption.
Qed.

(** X15 (witness): a first call of [new PIDController(100, 1, 0)] with an
    error of 10 returns 50, the basic value 1000.16 clamped. *)
Lemma enhanced_clamps_basic_witness :
  fst (calculate (new 100 1 0 None) 10 0 1) = 50.
Proof.
  rewrite (proj1 (enhanced_clamps_basic (new 100 1 0 None) 10 0 1
                    eq_refl eq_refl (or_introl eq_refl))).
  apply PIDProofs.clamp_above; [lra |].
  unfold BasicPID.calculate, BasicPID.clampedIntegral, BasicPID.derivative,
    BasicPID.dt, basic; simpl.
  destruct (Req_dec_T 0 0); [| contradiction].
  pose proof (PIDProofs.clamp_range (-100) 100 (0 + (10 - 0) * 0.016)).
  lra.
Defined.

(** *** Reset *)

Lemma calculateAll_keeps_configuration (samples : list sample) :
  forall c : t,
    let c' := calculateAll c samples in
    kp c' = kp c /\ ki c' = ki c /\ kd c' = kd c
    /\ useAngleWrapping c' = useAngleWrapping c.
Proof.
  induction samples as [| x samples IH]; intros c.
  - simpl. repeat split.
  - exact (IH (snd (calculate c (setpoint x) (processVariable x) (currentTime x)))).
Qed.

(** X16: [calculate] never changes the gains or the wrapping mode, so
    after any sequence of calls [reset] gives back exactly the controller
    the constructor builds from the same gains and mode, and the call
    after a reset is a first call. *)
Theorem reset_is_fresh (c : t) (samples : list sample) :
  let used := calculateAll c samples in
  reset used = new (kp c) (ki c) (kd c) (Some (useAngleWrapping c))
  /\ forall sp pv time,
      calculate (reset used) sp pv time
      = calculate (new (kp c) (ki c) (kd c) (Some (useAngleWrapping c)))
          sp pv time.
Proof.
  intros used.
  assert (E : reset used = new (kp c) (ki c) (kd c) (Some (useAngleWrapping c))).
  { destruct (calculateAll_keeps_configuration samples c) as (Hp & Hi & Hd & Hw).
    fold used in Hp, Hi, Hd, Hw.
    unfold reset, new. rewrite Hp, Hi, Hd, Hw. reflexivity. }
  split; [assumption |]. intros sp pv time. rewrite E. reflexivity.
Qed.

(** *** Symmetry *)

Lemma sign_opp (x : R) : sign (- x) = - sign x.
Proof.
  destruct (Rtotal_order x 0) as [Hlt | [Heq | Hgt]].
  - rewrite (sign_neg x Hlt), sign_pos by lra. ring.
  - subst x. rewrite Ropp_0, sign_zero. ring.
  - rewrite (sign_pos x Hgt), sign_neg by lra. ring.
Qed.

Lemma clamp_opp (a x : R) :
  0 <= a -> Rmax (- a) (Rmin a (- x)) = - Rmax (- a) (Rmin a x).
Proof.
  intros Ha. unfold Rmax, Rmin.
  repeat destruct (Rle_dec _ _); lra.
Qed.

Lemma error_mirror (c : t) (sp pv : R) :
  error (mirror c) (- sp) (- pv) = - error c sp pv.
Proof.
  unfold error, mirror; simpl.
  replace (- sp - - pv) with (- (sp - pv)) by ring.
  destruct (useAngleWrapping c); [apply AngleProofs.wrap_opp | reflexivity].
Qed.

Lemma clampedIntegral_mirror (c : t) (e d : R) :
  clampedIntegral (mirror c) (- e) d = - clampedIntegral c e d.
Proof.
  unfold clampedIntegral, integralMin, integralMax, mirror; simpl.
  replace (- integral c + - e * d) with (- (integral c + e * d)) by ring.
  apply clamp_opp. lra.
Qed.

Lemma newFilteredDerivative_mirror (c : t) (e d : R) :
  newFilteredDerivative (mirror c) (- e) d = - newFilteredDerivative c e d.
Proof.
  unfold newFilteredDerivative, mirror; simpl.
  destruct (Rgt_dec d 0); [| reflexivity]. field. lra.
Qed.

Lemma output_mirror (c : t) (e d : R) :
  output (mirror c) (- e) d = - output c e d.
Proof.
  unfold output, P, I, D, derivative.
  rewrite clampedIntegral_mirror, newFilteredDerivative_mirror.
  unfold mirror; simpl. destruct (Rgt_dec d 0); ring.
Qed.

Lemma saturate_opp (x : R) : saturate (- x) = - saturate x.
Proof.
  unfold saturate, outputMin, outputMax. apply clamp_opp. lra.
Qed.

Lemma backCalculated_mirror (c : t) (e d : R) :
  backCalculated (mirror c) (- e) d = - backCalculated c e d.
Proof.
  unfold backCalculated.
  rewrite output_mirror, saturate_opp, clampedIntegral_mirror, !sign_opp.
  destruct (Req_dec_T (output c e d) (saturate (output c e d))) as [Ho | Ho];
    destruct (Req_dec_T (- output c e d) (- saturate (output c e d)))
      as [Ho' | Ho']; try lra.
  destruct (Req_dec_T (sign e) (sign (clampedIntegral c e d))) as [Hs | Hs];
    destruct (Req_dec_T (- sign e) (- sign (clampedIntegral c e d)))
      as [Hs' | Hs']; try lra.
Qed.

(** X17: [calculate] is odd.  On the mirrored controller (integral,
    previous error and filtered derivative negated) the call with the
    opposite setpoint and process variable returns the opposite value and
    ends in the mirror of the state the original call ends in; this holds
    with angle wrapping on as well as off. *)
Theorem calculate_odd (c : t) (sp pv time : R) :
  calculate (mirror c) (- sp) (- pv) time
  = (- fst (calculate c sp pv time), mirror (snd (calculate c sp pv time))).
Proof.
  unfold calculate. rewrite error_mirror.
  change (dt (mirror c) time) with (dt c time).
  rewrite output_mirror, saturate_opp, backCalculated_mirror,
    newFilteredDerivative_mirror.
  reflexivity.
Qed.

(** *** The integral over a run *)

Lemma error_small (c : t) (sp pv : R) :
  useAngleWrapping c = true \/ Rabs (sp - pv) <= 2000 ->
  Rabs (error c sp pv) <= 2000.
Proof.
  intros [Hw | He]; unfold error.
  - rewrite Hw. pose proof (normalizeAngle_range (sp - pv)) as H.
    pose proof PI_4. apply Rabs_le. lra.
  - destruct (useAngleWrapping c); [| assumption].
    pose proof (normalizeAngle_range (sp - pv)) as H.
    pose proof PI_4. apply Rabs_le. lra.
Qed.

Lemma integral_run_small_errors (samples : list sample) :
  forall c : t,
    useAngleWrapping c = true
    \/ Forall (fun x => Rabs (setpoint x - processVariable x) <= 2000) samples ->
    -100 <= integral c <= 100 ->
    -100 <= integral (calculateAll c samples) <= 100.
Proof.
  induction samples as [| x samples IH]; intros c Hsmall Hc.
  - assumption.
  - apply (IH (snd (calculate c (setpoint x) (processVariable x) (currentTime x)))).
    + destruct Hsmall as [Hw | Hall]; [left; assumption | right].
      inversion Hall; assumption.
    + apply PIDProofs.integral_bounded_small_error, error_small.
      destruct Hsmall as [Hw | Hall]; [left; assumption | right].
      inversion Hall; assumption.
Qed.

(** X18: over any sequence of [calculate] calls the integral stays in
    [[-100, 100]] provided it starts there and either angle wrapping is on
    (the error is then at most [PI] in magnitude) or every sample has
    [|setpoint - processVariable| <= 2000]. *)
Theorem integral_bounded_for_small_errors (c : t) (samples : list sample) :
  useAngleWrapping c = true
  \/ Forall (fun x => Rabs (setpoint x - processVariable x) <= 2000) samples ->
  -100 <= integral c <= 100 ->
  -100 <= integral (calculateAll c samples) <= 100.
Proof.
  apply integral_run_small_errors.
Qed.

(** X18 (witness): with angle wrapping on, the inputs that take the
    integral of [pageController] to -300 leave it within its bounds. *)
Lemma integral_bounded_for_small_errors_witness :
  -100
  <= integral (calculateAll (new 100 1 50 (Some true)) [mkSample 50000 0 1])
  <= 100.
Proof.
  apply integral_bounded_for_small_errors.
  - left. reflexivity.
  - simpl. lra.
Defined.

(** *** The back-calculation *)

(** X19: the integral a call ends with is the clamped integral, or the
    clamped integral less [error * dt / 2]; it is the clamped integral
    whenever [P + I + D] is within [[-50, 50]]; and the back-calculation
    only ever moves it towards zero and beyond, never further to the side
    it is on: a positive clamped integral does not grow and a negative
    one does not shrink. *)
Theorem back_calculation_direction (c : t) (sp pv time : R) :
  let e := error c sp pv in
  let d := dt c time in
  let clamped := clampedIntegral c e d in
  let final := integral (snd (calculate c sp pv time)) in
  (final = clamped \/ final = clamped - e * d * 0.5)
  /\ (-50 <= output c e d <= 50 -> final = clamped)
  /\ (0 <= clamped -> final <= clamped)
  /\ (clamped <= 0 -> clamped <= final).
Proof.
  intros e d clamped final.
  assert (Hd : 0 < d) by (pose proof (PIDProofs.dt_range c time); unfold d; lra).
  assert (Ef : final = backCalculated c e d) by reflexivity.
  rewrite Ef. unfold backCalculated. fold clamped.
  destruct (Req_dec_T _ _) as [Ho | Ho].
  { split; [left; reflexivity |]. repeat split; intros; lra. }
  destruct (Req_dec_T _ _) as [Hs | Hs].
  - split; [right; reflexivity |]. split.
    + intros Hin. exfalso. apply Ho. symmetry.
      unfold saturate, outputMin, outputMax.
      apply PIDProofs.clamp_inside. assumption.
    + destruct (Rtotal_order e 0) as [Hlt | [Heq | Hgt]].
      * rewrite (sign_neg e Hlt) in Hs. symmetry in Hs.
        apply PIDProofs.sign_minus_one in Hs.
        assert (e * d < 0) by nra. split; intros; lra.
      * rewrite Heq. split; intros; lra.
      * rewrite (sign_pos e Hgt) in Hs. symmetry in Hs.
        apply PIDProofs.sign_one in Hs.
        assert (0 < e * d) by nra. split; intros; lra.
  - split; [left; reflexivity |]. repeat split; intros; lra.
Qed.

(** X19 (witness): a first call of [new PIDController(1, 1, 0)] with an
    error of 0.1 is unsaturated and ends with the clamped integral
    0.0016. *)
Lemma back_calculation_direction_witness :
  integral (snd (calculate (new 1 1 0 None) 0.1 0 1)) = 0.0016.
Proof.
  assert (Hd : dt (new 1 1 0 None) 1 = 0.016)
    by (apply PIDProofs.dt_first_call; reflexivity).
  assert (Hc : clampedIntegral (new 1 1 0 None) (0.1 - 0) 0.016 = 0.0016).
  { unfold clampedIntegral, integralMin, integralMax; simpl.
    rewrite PIDProofs.clamp_inside; lra. }
  rewrite (proj1 (proj2 (back_calculation_direction (new 1 1 0 None) 0.1 0 1))).
  - rewrite Hd. exact Hc.
  - rewrite Hd. change (error (new 1 1 0 None) 0.1 0) with (0.1 - 0).
    unfold output, P, I, D. rewrite Hc.
    rewrite PIDProofs.derivative_filtered by lra. simpl. lra.
Defined.

(** *** The clock sentinel *)

(** X20: [previousTime = 0] doubles as "no call yet".  A call stamped
    with [currentTime = 0] is therefore not remembered as a sample time:
    the call after it again uses the default step 0.016, whatever its own
    time stamp; after a call stamped with any other time the next step is
    the elapsed time clamped into [[0.001, 0.1]]. *)
Theorem zero_time_stamp (c : t) (sp pv time next : R) :
  dt (snd (calculate c sp pv 0)) next = 0.016
  /\ (time <> 0 ->
      dt (snd (calculate c sp pv time)) next
      = Rmax 0.001 (Rmin (next - time) 0.1)).
Proof.
  split.
  - apply PIDProofs.dt_first_call. reflexivity.
  - intros H. apply PIDProofs.dt_later_call. assumption.
Qed.

(** X20 (witness): after a call at time 5, a call at time 5.05 uses the
    elapsed 0.05. *)
Lemma zero_time_stamp_witness :
  dt (snd (calculate pageController 0 0.1 5)) 5.05 = 0.05.
Proof.
  rewrite (proj2 (zero_time_stamp pageController 0 0.1 5 5.05)) by lra.
  rewrite (Rmin_comm _ 0.1), PIDProofs.clamp_inside; lra.
Defined.

End PIDExtra.

(** ** Properties of the page loop *)

Module PageProofs.
Import Page.

Lemma update_by_clamps (s : InvertedPendulum.t) (f f' d d' : R) :
  InvertedPendulum.clampForce f = InvertedPendulum.clampForce f' ->
  InvertedPendulum.clampDt d = InvertedPendulum.clampDt d' ->
  InvertedPendulum.update s f d = InvertedPendulum.update s f' d'.
Proof.
  intros Hf Hd.
  unfold InvertedPendulum.update, InvertedPendulum.beforePositionLimit.
  rewrite Hf, Hd. reflexivity.
Qed.

Lemma simulate_force_range (controllerEnabled : bool) (r : refs) (currentTime : R) :
  -50 <= force (simulate controllerEnabled r currentTime) <= 50.
Proof.
  unfold simulate. cbn [force]. destruct controllerEnabled; [| lra].
  rewrite PIDProofs.calculate_fst. apply PIDProofs.saturate_range.
Qed.



(** *** The closed loop *)

Lemma frame_pendulum_limits (controllerEnabled : bool) (r : refs) (currentTime : R) :
  let p := pendulum (after (simulate controllerEnabled r currentTime)) in
  Rabs (InvertedPendulum.cartPosition p) <= 5
  /\ - PI <= InvertedPendulum.pendulumAngle p <= PI.
Proof.
  unfold simulate. cbn [after pendulum]. split.
  - rewrite PendulumProofs.update_cartPosition.
    match goal with
    | |- Rabs (InvertedPendulum.cartPosition (InvertedPendulum.limitPosition ?b)) <= _ =>
        pose proof (PendulumProofs.limitPosition_bound b) as H
    end.
    unfold InvertedPendulum.maxCartPosition in H. lra.
  - rewrite PendulumProofs.update_pendulumAngle. apply normalizeAngle_range.
Qed.

Lemma frame_integral (controllerEnabled : bool) (r : refs) (currentTime : R) :
  -100 <= PIDController.integral (controller r) <= 100 ->
  Rabs (InvertedPendulum.pendulumAngle (pendulum r)) <= 2000 ->
  -100
  <= PIDController.integral
       (controller (after (simulate controllerEnabled r currentTime)))
  <= 100.
Proof.
  intros Hi Ha. unfold simulate. cbn [after controller].
  destruct controllerEnabled; [| assumption].
  apply PIDProofs.integral_bounded_small_error, PIDExtra.error_small.
  right. cbn [InvertedPendulum.getState InvertedPendulum.st_pendulumAngle].
  replace (0 - InvertedPendulum.pendulumAngle (pendulum r))
    with (- InvertedPendulum.pendulumAngle (pendulum r)) by ring.
  rewrite Rabs_Ropp. assumption.
Qed.

Lemma loop_invariant (ticks : list tick) :
  forall r : refs,
    -100 <= PIDController.integral (controller r) <= 100 ->
    Rabs (InvertedPendulum.pendulumAngle (pendulum r)) <= 2000 ->
    -100 <= PIDController.integral (controller (simulateAll r ticks)) <= 100
    /\ Rabs (InvertedPendulum.pendulumAngle (pendulum (simulateAll r ticks)))
       <= 2000
    /\ (ticks <> [] ->
        Rabs (InvertedPendulum.cartPosition (pendulum (simulateAll r ticks))) <= 5
        /\ - PI <= InvertedPendulum.pendulumAngle (pendulum (simulateAll r ticks))
           <= PI).
Proof.
  induction ticks as [| k ticks IH]; intros r Hi Ha.
  - split; [assumption |]. split; [assumption |]. intros H. contradiction.
  - set (r1 := after (simulate (enabled k) r (stamp k))).
    change (simulateAll r (k :: ticks)) with (simulateAll r1 ticks).
    pose proof (frame_pendulum_limits (enabled k) r (stamp k)) as [Hx Hang].
    fold r1 in Hx, Hang.
    pose proof (frame_integral (enabled k) r (stamp k) Hi Ha) as Hi1.
    fold r1 in Hi1.
    assert (Ha1 : Rabs (InvertedPendulum.pendulumAngle (pendulum r1)) <= 2000).
    { apply Rabs_le. pose proof PI_4. lra. }
    destruct (IH r1 Hi1 Ha1) as (Hi' & Ha' & Hrest).
    split; [assumption |]. split; [assumption |]. intros _.
    destruct ticks as [| k' ticks'].
    + split; assumption.
    + apply Hrest. discriminate.
Qed.



(** *** The recorded points *)

Lemma degrees_range (angle : R) :
  - PI <= angle <= PI -> -180 <= angle * (180 / PI) <= 180.
Proof.
  intros [Hlo Hhi]. pose proof PI_RGT_0 as Hpi.
  assert (Hq : -1 <= angle / PI <= 1).
  { split.
    - apply Rmult_le_reg_r with PI; [assumption |].
      unfold Rdiv. rewrite Rmult_assoc, Rinv_l by lra. lra.
    - apply Rmult_le_reg_r with PI; [assumption |].
      unfold Rdiv. rewrite Rmult_assoc, Rinv_l by lra. lra. }
  replace (angle * (180 / PI)) with (180 * (angle / PI)) by (field; lra).
  lra.
Qed.

Lemma frame_points (controllerEnabled : bool) (r : refs) (currentTime : R) :
  let f := simulate controllerEnabled r currentTime in
  value (anglePoint f) = value (positionPoint f)
  /\ -180 <= value (positionPoint f) <= 180
  /\ -5 <= time (positionPoint f) <= 5.
Proof.
  intros f.
  destruct (frame_pendulum_limits controllerEnabled r currentTime) as [Hx Ha].
  split; [reflexivity |]. split.
  - apply degrees_range. exact Ha.
  - apply Rabs_bound. exact Hx.
Qed.


(** *** The buttons *)

(** X28: the Reset button restarts the run: the pendulum is at rest at the
    origin with the chosen angle and no failure, the controller is the one
    the constructor builds from the current gains, and the next frame,
    whatever its time stamp, is a first frame for both: the model advances
    by 0.016 s and the controller uses its default step.  Switching the
    controller on resets it in the same way; switching it off changes
    nothing but the flag. *)
Theorem buttons_restart
  (initialAngle : R) (controllerEnabled : bool) (r : refs) (currentTime : R) :
  let r' := handleReset initialAngle r in
  let c := controller r in
  let fresh :=
    PIDController.new (PIDController.kp c) (PIDController.ki c)
      (PIDController.kd c) (Some (PIDController.useAngleWrapping c)) in
  InvertedPendulum.getState (pendulum r')
  = InvertedPendulum.mkState 0 0 initialAngle 0 false
  /\ controller r' = fresh
  /\ pendulum (after (simulate controllerEnabled r' currentTime))
     = InvertedPendulum.update (pendulum r')
         (force (simulate controllerEnabled r' currentTime)) 0.016
  /\ PIDController.dt (controller r') (currentTime / 1000) = 0.016
  /\ toggleController false r
     = (true, mkRefs (pendulum r) fresh (lastTime r) (startTime r))
  /\ toggleController true r = (false, r).
Proof.
  intros r' c fresh.
  split; [reflexivity |]. split; [reflexivity |]. split.
  - unfold simulate. cbn [after pendulum force].
    change (lastTime r') with 0.
    destruct (Req_dec_T 0 0); [| contradiction].
    apply update_by_clamps; [reflexivity |].
    unfold InvertedPendulum.clampDt, Rmin.
    repeat destruct (Rle_dec _ _); lra.
  - split; [| split; reflexivity].
    apply PIDProofs.dt_first_call. reflexivity.
Qed.

End PageProofs.

(** ** Properties of the graph and of the drawing *)

Module GraphProofs.
Import Page LiveGraph.

Lemma fold_min_below (xs : list R) :
  forall a : R,
    fold_left Rmin xs a <= a /\ (forall y, In y xs -> fold_left Rmin xs a <= y).
Proof.
  induction xs as [| x xs IH]; intros a; simpl.
  - split; [lra | intros y []].
  - destruct (IH (Rmin a x)) as [Hacc Hin].
    pose proof (Rmin_l a x). pose proof (Rmin_r a x).
    split; [lra |]. intros y [-> | Hy]; [lra | apply Hin; assumption].
Qed.

Lemma fold_max_above (xs : list R) :
  forall a : R,
    a <= fold_left Rmax xs a /\ (forall y, In y xs -> y <= fold_left Rmax xs a).
Proof.
  induction xs as [| x xs IH]; intros a; simpl.
  - split; [lra | intros y []].
  - destruct (IH (Rmax a x)) as [Hacc Hin].
    pose proof (Rmax_l a x). pose proof (Rmax_r a x).
    split; [lra |]. intros y [-> | Hy]; [lra | apply Hin; assumption].
Qed.

(** [Math.min] and [Math.max] of the mapped array bracket every element. *)
Lemma extremes_bracket (f : DataPoint -> R) (d : DataPoint) (ds : list DataPoint) :
  forall point, In point (d :: ds) ->
    minOf (f d) (map f ds) <= f point <= maxOf (f d) (map f ds).
Proof.
  intros point Hin. unfold minOf, maxOf.
  destruct (fold_min_below (map f ds) (f d)) as [Hm1 Hm2].
  destruct (fold_max_above (map f ds) (f d)) as [HM1 HM2].
  destruct Hin as [-> | Hin]; [lra |].
  split; [apply Hm2 | apply HM2]; apply in_map; assumption.
Qed.

(** A value between the two ends of a range, measured from the low end
    and divided by the range or by 1 when the range is empty, is between
    0 and 1. *)
Lemma unit_quotient (lo hi x : R) :
  lo <= x <= hi -> 0 <= (x - lo) / orOne (hi - lo) <= 1.
Proof.
  intros [Hlo Hhi]. unfold orOne.
  destruct (Req_dec_T (hi - lo) 0) as [E | Hne].
  - replace (x - lo) with 0 by lra. unfold Rdiv. rewrite Rmult_0_l. lra.
  - assert (Hpos : 0 < hi - lo) by lra.
    split.
    + apply Rmult_le_reg_r with (hi - lo); [assumption |].
      unfold Rdiv. rewrite Rmult_assoc, Rinv_l by assumption. lra.
    + apply Rmult_le_reg_r with (hi - lo); [assumption |].
      unfold Rdiv. rewrite Rmult_assoc, Rinv_l by assumption. lra.
Qed.

Lemma inPlot_of_quotients (g : ranges) (point : DataPoint) :
  0 <= (time point - minTime g) / timeRange g <= 1 ->
  0 <= (value point - valueMin g) / valueRange g <= 1 ->
  inPlot (plotX g point, plotY g point).
Proof.
  intros Hx Hy.
  unfold inPlot, plotX, plotY, plotWidth, plotHeight, canvasWidth, canvasHeight,
    paddingLeft, paddingRight, paddingTop, paddingBottom; simpl.
  split; split; nra.
Qed.

Lemma layout_inversion (p : props) (g : ranges) :
  layout p = Some g ->
  exists d ds,
    displayData g = d :: ds
    /\ slice (window p) (data p) = d :: ds
    /\ minTime g
       = match xMin p with Some x => x | None => minOf (time d) (map time ds) end
    /\ timeRange g
       = orOne (match xMax p with
                | Some x => x
                | None => maxOf (time d) (map time ds)
                end - minTime g)
    /\ valueMin g
       = match yMin p with
         | Some y => y
         | None => minOf (value d) (map value ds)
                   - (maxOf (value d) (map value ds)
                      - minOf (value d) (map value ds)) * 0.1
         end
    /\ valueRange g
       = orOne (match yMax p with
                | Some y => y
                | None => maxOf (value d) (map value ds)
                          + (maxOf (value d) (map value ds)
                             - minOf (value d) (map value ds)) * 0.1
                end - valueMin g).
Proof.
  unfold layout, window. destruct (data p) as [| d0 rest]; [discriminate |].
  destruct (slice _ (d0 :: rest)) as [| d ds] eqn:E; [discriminate |].
  intros H. inversion H; subst; clear H. simpl.
  exists d, ds. repeat split; reflexivity.
Qed.





(** *** The displayed window *)

Lemma slice_suffix (n : nat) (l : list DataPoint) :
  exists older, l = older ++ slice n l.
Proof.
  destruct n as [| n]; simpl.
  - exists []. reflexivity.
  - exists (firstn (List.length l - S n) l). symmetry. apply firstn_skipn.
Qed.

Lemma slice_length (n : nat) (l : list DataPoint) :
  List.length (slice n l)
  = match n with O => List.length l | S _ => Nat.min (List.length l) n end.
Proof.
  destruct n as [| n]; [reflexivity |].
  unfold slice. rewrite length_skipn. lia.
Qed.

(** X26: the effect draws nothing exactly when [data] is empty.
    Otherwise the displayed window is the tail of [data]: its last
    [maxDataPoints] points (500 by default), all of them when there are
    fewer, and also all of them when [maxDataPoints] is 0, since
    [slice(-0)] is [slice(0)].  A window of a single point gets axes but
    no line; a longer one gets one vertex per point. *)
Theorem displayed_window (p : props) :
  (layout p = None <-> data p = [])
  /\ forall g, layout p = Some g ->
       (exists older, data p = older ++ displayData g)
       /\ List.length (displayData g)
          = match window p with
            | O => List.length (data p)
            | S _ => Nat.min (List.length (data p)) (window p)
            end
       /\ (List.length (displayData g) = 1%nat -> line g = [])
       /\ (2 <= List.length (displayData g) ->
           List.length (line g) = List.length (displayData g))%nat.
Proof.
  split.
  - split.
    + intros H. destruct (data p) as [| d0 rest] eqn:E; [reflexivity |].
      exfalso. unfold layout in H. rewrite E in H.
      destruct (slice (window p) (d0 :: rest)) as [| d ds] eqn:Es;
        [| discriminate].
      pose proof (slice_length (window p) (d0 :: rest)) as Hlen.
      rewrite Es in Hlen. simpl in Hlen.
      destruct (window p); [discriminate | lia].
    + intros E. unfold layout. rewrite E. reflexivity.
  - intros g Hl.
    destruct (layout_inversion p g Hl) as (d & ds & Hd & Hs & _).
    rewrite Hd, <- Hs.
    split; [apply slice_suffix |]. split; [apply slice_length |].
    rewrite Hs. unfold line. rewrite Hd. split.
    + destruct ds; [reflexivity | discriminate].
    + destruct ds as [| d' ds']; simpl; [lia |].
      intros _. rewrite length_map. reflexivity.
Qed.

(** X26 (witness): three samples under [maxDataPoints = 2] show the last
    two. *)
Lemma displayed_window_witness :
  exists g,
    layout (mkProps [mkPoint 0 1; mkPoint 1 2; mkPoint 2 3]
                    (Some 2%nat) None None None None)
    = Some g
    /\ List.length (displayData g) = 2%nat.
Proof.
  set (p := mkProps [mkPoint 0 1; mkPoint 1 2; mkPoint 2 3]
                    (Some 2%nat) None None None None).
  destruct (layout p) as [g |] eqn:Hl.
  - exists g. split; [reflexivity |].
    rewrite (proj1 (proj2 (proj2 (displayed_window p) g Hl))). reflexivity.
  - apply (proj1 (displayed_window p)) in Hl. discriminate Hl.
Defined.

(** *** The drawing of the pendulum *)


End GraphProofs.

(** ** Properties on numbers with special values

    The theorems of this part hold for every [arithmetic] that obeys the
    [laws]; exact arithmetic is the instance their witnesses and
    counterexamples are computed in. *)

Module JsFacts.
Import Js JsPendulum.

Lemma PI_above_3 : 3 < PI.
Proof. pose proof PI2_3_2. lra. Qed.

Lemma exact_laws : laws exact.
Proof.
  constructor.
  - intros [r | | |]; simpl; try reflexivity.
    + f_equal. ring.
    + unfold signedInf. destruct (Rlt_dec 0 1); [reflexivity | lra].
    + unfold signedInf. destruct (Rlt_dec 0 1); [reflexivity | lra].
  - intros [r | | |]; simpl; try reflexivity.
    + f_equal. ring.
    + unfold signedInf. destruct (Rlt_dec 0 (-1)); [lra |].
      destruct (Rlt_dec (-1) 0); [reflexivity | lra].
    + unfold signedInf. destruct (Rlt_dec 0 (-1)); [lra |].
      destruct (Rlt_dec (-1) 0); [reflexivity | lra].
  - intros [r | | |]; simpl; try discriminate.
    + destruct (Rgt_dec (- PI) r) as [Hr | Hr]; [| discriminate].
      intros _. split; [| discriminate].
      destruct (Rgt_dec (r + 2 * PI) PI); [lra | reflexivity].
    + intros _. split; [reflexivity | discriminate].
  - intros [r | | |]; simpl; discriminate.
Qed.

Lemma exact_progress (bound : R) : progress bound exact.
Proof.
  pose proof PI_above_3 as Hpi.
  constructor; intros r Hr; simpl.
  - exists (r + - (2 * PI)). split; [reflexivity | lra].
  - exists (r + 2 * PI). split; [reflexivity | lra].
Qed.

(** *** Comparisons *)

Lemma within_of_tests (lo hi : R) (x : number) :
  x <> NaN -> gt x (Num hi) = false -> lt x (Num lo) = false ->
  within lo hi x.
Proof.
  destruct x as [r | | |]; simpl; intros Hn Hhi Hlo; try discriminate.
  - destruct (Rgt_dec r hi); [discriminate |].
    destruct (Rgt_dec lo r); [discriminate |]. lra.
  - contradiction.
Qed.

Lemma tests_of_within (lo hi : R) (x : number) :
  within lo hi x ->
  x <> NaN /\ gt x (Num hi) = false /\ lt x (Num lo) = false.
Proof.
  destruct x as [r | | |]; simpl; intros H; try contradiction.
  split; [discriminate |].
  destruct (Rgt_dec r hi); [lra |].
  destruct (Rgt_dec lo r); [lra |]. split; reflexivity.
Qed.

Lemma below_not_above (x : number) :
  lt x (neg (Num PI)) = true -> gt x (Num PI) = false.
Proof.
  pose proof PI_RGT_0 as Hpi.
  destruct x as [r | | |]; simpl; intros H; try discriminate; try reflexivity.
  destruct (Rgt_dec (- PI) r); [| discriminate].
  destruct (Rgt_dec r PI); [lra | reflexivity].
Qed.

(** *** [normalizeAngle] *)

Section Wrap.

Variable A : arithmetic.

Lemma wrapDown_at_most (fuel : nat) :
  forall x y, wrapDown A fuel x = Some y -> gt y (Num PI) = false.
Proof.
  induction fuel as [| fuel IH]; intros x y; cbn [wrapDown];
    destruct (gt x (Num PI)) eqn:E; intros H.
  - discriminate.
  - injection H as <-. assumption.
  - apply (IH _ _ H).
  - injection H as <-. assumption.
Qed.

Lemma wrapDown_NaN (fuel : nat) :
  laws A ->
  forall x y, wrapDown A fuel x = Some y -> (y = NaN <-> x = NaN).
Proof.
  intros HA.
  induction fuel as [| fuel IH]; intros x y; cbn [wrapDown];
    destruct (gt x (Num PI)) eqn:E; intros H.
  - discriminate.
  - injection H as <-. reflexivity.
  - rewrite (IH _ _ H). split; intros Hx.
    + exfalso. apply (sub_turn A HA x E Hx).
    + subst x. discriminate.
  - injection H as <-. reflexivity.
Qed.

Lemma wrapUp_range (fuel : nat) :
  laws A ->
  forall x y,
    x <> NaN -> gt x (Num PI) = false -> wrapUp A fuel x = Some y ->
    within (- PI) PI y.
Proof.
  intros HA.
  induction fuel as [| fuel IH]; intros x y Hn Hhi; cbn [wrapUp];
    destruct (lt x (neg (Num PI))) eqn:E; intros H.
  - discriminate.
  - injection H as <-. apply within_of_tests; assumption.
  - destruct (add_turn A HA x E) as [Hle Hnn].
    apply (IH _ _ Hnn Hle H).
  - injection H as <-. apply within_of_tests; assumption.
Qed.

Lemma wrapUp_NaN (fuel : nat) : wrapUp A fuel NaN = Some NaN.
Proof. destruct fuel; reflexivity. Qed.

(** What [normalizeAngle] returns, when it returns. *)
Lemma normalizeAngle_guard (fuel : nat) (x y : number) :
  laws A ->
  normalizeAngle A fuel x = Some y ->
  (x = NaN /\ y = NaN) \/ (x <> NaN /\ within (- PI) PI y).
Proof.
  intros HA. unfold normalizeAngle.
  destruct (wrapDown A fuel x) as [lowered |] eqn:Ed; [| discriminate].
  intros Hu.
  pose proof (wrapDown_at_most fuel x lowered Ed) as Hle.
  pose proof (wrapDown_NaN fuel HA x lowered Ed) as Hnan.
  destruct x as [r | | |].
  - right. split; [discriminate |].
    apply (wrapUp_range fuel HA lowered y); try assumption.
    intros E. apply Hnan in E. discriminate.
  - right. split; [discriminate |].
    apply (wrapUp_range fuel HA lowered y); try assumption.
    intros E. apply Hnan in E. discriminate.
  - right. split; [discriminate |].
    apply (wrapUp_range fuel HA lowered y); try assumption.
    intros E. apply Hnan in E. discriminate.
  - left. split; [reflexivity |].
    assert (El : lowered = NaN) by (apply Hnan; reflexivity).
    subst lowered. rewrite wrapUp_NaN in Hu. injection Hu as <-. reflexivity.
Qed.

(** An angle that is [NaN] or already in range is returned at once. *)
Lemma normalizeAngle_at_once (fuel : nat) (x : number) :
  x = NaN \/ within (- PI) PI x -> normalizeAngle A fuel x = Some x.
Proof.
  intros [-> | H]; unfold normalizeAngle.
  - destruct fuel; reflexivity.
  - destruct (tests_of_within _ _ _ H) as [_ [Hhi Hlo]].
    change (Num (- PI)) with (neg (Num PI)) in Hlo.
    assert (Ed : wrapDown A fuel x = Some x).
    { destruct fuel; cbn [wrapDown]; rewrite Hhi; reflexivity. }
    rewrite Ed. destruct fuel; cbn [wrapUp]; rewrite Hlo; reflexivity.
Qed.

Lemma wrapDown_returns (bound : R) (fuel : nat) :
  progress bound A ->
  forall r,
    - bound <= r <= bound -> r - PI <= INR fuel ->
    exists r', wrapDown A fuel (Num r) = Some (Num r') /\ - bound <= r' <= PI.
Proof.
  intros HP.
  induction fuel as [| fuel IH]; intros r Hr Hfuel; simpl;
    destruct (Rgt_dec r PI) as [Hgt | Hle].
  - simpl in Hfuel. lra.
  - exists r. split; [reflexivity | lra].
  - destruct (turn_down bound A HP r) as [r' [E Hr']]; [lra |].
    rewrite E. apply IH; [lra |].
    rewrite S_INR in Hfuel. lra.
  - exists r. split; [reflexivity | lra].
Qed.

Lemma wrapUp_returns (bound : R) (fuel : nat) :
  progress bound A ->
  forall r,
    - bound <= r -> - PI - r <= INR fuel ->
    exists y, wrapUp A fuel (Num r) = Some y.
Proof.
  intros HP.
  induction fuel as [| fuel IH]; intros r Hr Hfuel; simpl;
    destruct (Rgt_dec (- PI) r) as [Hgt | Hle].
  - simpl in Hfuel. lra.
  - exists (Num r). reflexivity.
  - destruct (turn_up bound A HP r) as [r' [E Hr']]; [lra |].
    rewrite E. apply IH; [lra |].
    rewrite S_INR in Hfuel. lra.
  - exists (Num r). reflexivity.
Qed.

(** A finite angle within [bound] is normalized in [bound] iterations,
    when the shifts make progress up to [bound]. *)
Lemma normalizeAngle_returns (bound : R) (fuel : nat) (x : number) :
  progress bound A ->
  within (- bound) bound x -> bound <= INR fuel ->
  exists y, normalizeAngle A fuel x = Some y.
Proof.
  intros HP Hx Hfuel. pose proof PI_RGT_0.
  destruct x as [r | | |]; simpl in Hx; try contradiction.
  unfold normalizeAngle.
  destruct (wrapDown_returns bound fuel HP r) as [r' [-> Hr']]; [lra | lra |].
  apply (wrapUp_returns bound fuel HP); lra.
Qed.

(** An angle beyond [Math.PI] that the shift leaves unchanged is never
    normalized. *)
Lemma wrapDown_stuck (fuel : nat) (x : number) :
  gt x (Num PI) = true -> sub A x (mul A (Num 2) (Num PI)) = x -> wrapDown A fuel x = None.
Proof.
  intros Hgt Hfix. induction fuel as [| fuel IH]; cbn [wrapDown]; rewrite Hgt.
  - reflexivity.
  - rewrite Hfix. assumption.
Qed.

Lemma wrapUp_stuck (fuel : nat) (x : number) :
  lt x (neg (Num PI)) = true -> add A x (mul A (Num 2) (Num PI)) = x -> wrapUp A fuel x = None.
Proof.
  intros Hlt Hfix. induction fuel as [| fuel IH]; cbn [wrapUp]; rewrite Hlt.
  - reflexivity.
  - rewrite Hfix. assumption.
Qed.

Lemma normalizeAngle_stuck (fuel : nat) (x : number) :
  (gt x (Num PI) = true /\ sub A x (mul A (Num 2) (Num PI)) = x)
  \/ (lt x (neg (Num PI)) = true /\ add A x (mul A (Num 2) (Num PI)) = x) ->
  normalizeAngle A fuel x = None.
Proof.
  unfold normalizeAngle. intros [[Hgt Hfix] | [Hlt Hfix]].
  - rewrite wrapDown_stuck; [reflexivity | assumption | assumption].
  - assert (Ed : wrapDown A fuel x = Some x).
    { destruct fuel; cbn [wrapDown]; rewrite (below_not_above x Hlt); reflexivity. }
    rewrite Ed. apply wrapUp_stuck; assumption.
Qed.

End Wrap.

End JsFacts.

(** ** Exact arithmetic and the model on real numbers *)

Module ExactPendulum.
Import Js JsPendulum.

Ltac exact_ops :=
  cbn [add sub mul div sin cos exact exactAdd exactSub exactMul exactDiv
       exactSin exactCos neg abs signOf lt gt max min same
       lift liftDeriv massCart massPendulum length gravity friction
       airResistance cartPosition cartVelocity pendulumAngle
       pendulumAngularVelocity hasFailed dx dv dtheta domega option_map].

Ltac real_fields :=
  cbn [InvertedPendulum.massCart InvertedPendulum.massPendulum
       InvertedPendulum.length InvertedPendulum.gravity
       InvertedPendulum.friction InvertedPendulum.airResistance
       InvertedPendulum.cartPosition InvertedPendulum.cartVelocity
       InvertedPendulum.pendulumAngle InvertedPendulum.pendulumAngularVelocity
       InvertedPendulum.hasFailed].

Lemma stage_exact (cur dt : R) (k : option InvertedPendulum.deriv)
  (f : deriv -> number) (g : InvertedPendulum.deriv -> R) :
  (forall k, f (liftDeriv k) = Num (g k)) ->
  stage exact (Num cur) (Num dt) (option_map liftDeriv k) f
  = Num (InvertedPendulum.stage cur dt k g).
Proof.
  intros H. unfold stage, InvertedPendulum.stage.
  destruct k as [k |]; cbn [option_map]; [rewrite H |]; reflexivity.
Qed.

Lemma derivative_exact (s : InvertedPendulum.t) (force dt : R)
  (k : option InvertedPendulum.deriv) :
  InvertedPendulum.length s <> 0 ->
  derivative exact (lift s) (Num force) (Num dt) (option_map liftDeriv k)
  = liftDeriv (InvertedPendulum.derivative s force dt k).
Proof.
  intros Hl. unfold derivative, InvertedPendulum.derivative.
  cbn [lift cartVelocity pendulumAngle pendulumAngularVelocity].
  rewrite (stage_exact _ dt k dv InvertedPendulum.dv) by reflexivity.
  rewrite (stage_exact _ dt k dtheta InvertedPendulum.dtheta) by reflexivity.
  rewrite (stage_exact _ dt k domega InvertedPendulum.domega) by reflexivity.
  set (v := InvertedPendulum.stage _ dt k InvertedPendulum.dv).
  set (theta := InvertedPendulum.stage _ dt k InvertedPendulum.dtheta).
  set (omega := InvertedPendulum.stage _ dt k InvertedPendulum.domega).
  exact_ops.
  change (InvertedPendulum.massCart s + InvertedPendulum.massPendulum s
          + - (InvertedPendulum.massPendulum s * Rtrigo_def.cos theta
               * Rtrigo_def.cos theta))
    with (InvertedPendulum.denominator s theta).
  destruct (Rgt_dec 0.001 _) as [Hg | Hg];
    destruct (Rlt_dec _ 0.001) as [Hg' | Hg']; try lra.
  - reflexivity.
  - assert (Hd : InvertedPendulum.denominator s theta <> 0).
    { intros E. rewrite E, Rabs_R0 in Hg'. lra. }
    destruct (Req_dec_T (InvertedPendulum.denominator s theta) 0) as [E | _];
      [contradiction |].
    destruct (Req_dec_T _ 0) as [E | _].
    { apply Rmult_integral in E. destruct E; contradiction. }
    reflexivity.
Qed.

Lemma checkFailure_exact (s : InvertedPendulum.t) :
  checkFailure exact (lift s) = lift (InvertedPendulum.checkFailure s).
Proof.
  unfold checkFailure, InvertedPendulum.checkFailure, failureAngleThreshold,
    InvertedPendulum.failureAngleThreshold.
  exact_ops.
  destruct (Req_dec_T 3 0) as [E | _]; [lra |].
  destruct (Rgt_dec _ _); reflexivity.
Qed.

Lemma clampForce_exact (force : R) :
  clampForce (Num force) = Num (InvertedPendulum.clampForce force).
Proof. reflexivity. Qed.

Lemma clampDt_exact (dt : R) :
  clampDt (Num dt) = Num (InvertedPendulum.clampDt dt).
Proof. reflexivity. Qed.

Lemma integrate_exact (s : InvertedPendulum.t) (force dt : R) :
  InvertedPendulum.length s <> 0 ->
  integrate exact (lift s) (Num force) (Num dt)
  = lift (InvertedPendulum.integrate s force dt).
Proof.
  intros Hl. unfold integrate, InvertedPendulum.integrate.
  assert (Half : div exact (Num dt) (Num 2) = Num (dt / 2)).
  { exact_ops. destruct (Req_dec_T 2 0); [lra | reflexivity]. }
  assert (Sixth : div exact (Num dt) (Num 6) = Num (dt / 6)).
  { exact_ops. destruct (Req_dec_T 6 0); [lra | reflexivity]. }
  rewrite Half, Sixth.
  pose proof (fun dt k => derivative_exact s force dt k Hl) as Hk.
  pose proof (Hk 0 None) as H1. cbn [option_map] in H1. rewrite H1.
  pose proof (fun dt k => Hk dt (Some k)) as HS. cbn [option_map] in HS.
  rewrite !HS. reflexivity.
Qed.

Lemma limitVelocities_exact (s : InvertedPendulum.t) :
  limitVelocities exact (lift s) = lift (InvertedPendulum.limitVelocities s).
Proof.
  unfold limitVelocities, InvertedPendulum.limitVelocities,
    maxCartVelocity, maxAngularVelocity.
  exact_ops.
  destruct (Rgt_dec _ _); destruct (Rgt_dec _ _); reflexivity.
Qed.

Lemma limitPosition_exact (s : InvertedPendulum.t) :
  limitPosition exact (lift s) = lift (InvertedPendulum.limitPosition s).
Proof.
  unfold limitPosition, InvertedPendulum.limitPosition, maxCartPosition.
  exact_ops.
  destruct (Rgt_dec _ _); reflexivity.
Qed.

(** With exact arithmetic and a length that is not zero, the state the
    position limit is applied to, and the state it leaves, are those of
    the model on real numbers. *)
Lemma beforePositionLimit_exact (s : InvertedPendulum.t) (force dt : R) :
  InvertedPendulum.length s <> 0 ->
  beforePositionLimit exact (lift s) (Num force) (Num dt)
  = lift (InvertedPendulum.beforePositionLimit s force dt).
Proof.
  intros Hl. unfold beforePositionLimit, InvertedPendulum.beforePositionLimit.
  rewrite checkFailure_exact, clampForce_exact, clampDt_exact.
  rewrite integrate_exact, limitVelocities_exact; [reflexivity |].
  unfold InvertedPendulum.checkFailure.
  destruct (Rgt_dec _ _); assumption.
Qed.

Lemma afterPositionLimit_exact (s : InvertedPendulum.t) (force dt : R) :
  InvertedPendulum.length s <> 0 ->
  afterPositionLimit exact (lift s) (Num force) (Num dt)
  = lift (InvertedPendulum.limitPosition
            (InvertedPendulum.beforePositionLimit s force dt)).
Proof.
  intros Hl. unfold afterPositionLimit.
  rewrite beforePositionLimit_exact by assumption.
  apply limitPosition_exact.
Qed.

End ExactPendulum.

(** ** The guards of [update] *)

Module PendulumGuards.
Import Js JsPendulum JsFacts.

Section Guards.

Variable A : arithmetic.

Lemma limitPosition_angle (s : t) :
  pendulumAngle (limitPosition A s) = pendulumAngle s.
Proof. unfold limitPosition. destruct (gt _ _); reflexivity. Qed.

Lemma afterPositionLimit_angle (s : t) (force dt : number) :
  pendulumAngle (afterPositionLimit A s force dt)
  = pendulumAngle (integrate A (checkFailure A s) (clampForce force) (clampDt dt)).
Proof. unfold afterPositionLimit. rewrite limitPosition_angle. reflexivity. Qed.

(** [update] returns when [normalizeAngle] does, with the angle it
    returns and the other fields as the position limit left them. *)
Lemma update_fields (fuel : nat) (s s' : t) (force dt : number) :
  update A fuel s force dt = Some s' ->
  normalizeAngle A fuel (pendulumAngle (afterPositionLimit A s force dt))
  = Some (pendulumAngle s')
  /\ cartPosition s' = cartPosition (afterPositionLimit A s force dt)
  /\ cartVelocity s' = cartVelocity (afterPositionLimit A s force dt).
Proof.
  unfold update. destruct (normalizeAngle A fuel _) as [angle |]; [| discriminate].
  intros H. injection H as <-. split; [reflexivity | split; reflexivity].
Qed.

Lemma update_returns (fuel : nat) (s : t) (force dt : number) :
  (exists angle,
      normalizeAngle A fuel (pendulumAngle (afterPositionLimit A s force dt))
      = Some angle) ->
  exists s', update A fuel s force dt = Some s'.
Proof.
  intros [angle H]. unfold update. rewrite H. eexists. reflexivity.
Qed.

Lemma update_at_once (fuel : nat) (s : t) (force dt : number) :
  pendulumAngle (afterPositionLimit A s force dt) = NaN
  \/ within (- PI) PI (pendulumAngle (afterPositionLimit A s force dt)) ->
  update A fuel s force dt = Some (afterPositionLimit A s force dt).
Proof.
  intros H. unfold update. rewrite (normalizeAngle_at_once A fuel _ H).
  destruct (afterPositionLimit A s force dt). reflexivity.
Qed.

Lemma update_never (fuel : nat) (s : t) (force dt : number) :
  normalizeAngle A fuel (pendulumAngle (afterPositionLimit A s force dt)) = None ->
  update A fuel s force dt = None.
Proof. intros H. unfold update. rewrite H. reflexivity. Qed.

(** The position limit. *)

Lemma limitPosition_NaN (s : t) :
  cartPosition s = NaN -> limitPosition A s = s.
Proof. intros H. unfold limitPosition. rewrite H. reflexivity. Qed.

Lemma limitPosition_inside (s : t) :
  within (-5) 5 (cartPosition s) -> limitPosition A s = s.
Proof.
  intros H. unfold limitPosition, maxCartPosition.
  destruct (cartPosition s) as [r | | |]; simpl in *; try contradiction.
  destruct (Rgt_dec (Rabs r) 5.0) as [Hgt | _]; [| reflexivity].
  unfold Rabs in Hgt. destruct (Rcase_abs r); lra.
Qed.

Lemma limitPosition_right (s : t) :
  laws A ->
  gt (cartPosition s) (Num 5) = true ->
  cartPosition (limitPosition A s) = Num 5
  /\ cartVelocity (limitPosition A s) = mul A (cartVelocity s) (Num (-0.5)).
Proof.
  intros HA H. unfold limitPosition, maxCartPosition.
  destruct (cartPosition s) as [r | | |]; simpl in *; try discriminate.
  - destruct (Rgt_dec r 5) as [Hr | _]; [| discriminate].
    destruct (Rgt_dec (Rabs r) 5.0) as [_ | Hn].
    + cbn [cartPosition cartVelocity]. rewrite sign_pos by lra.
      rewrite (mul_one_l A HA). split; [f_equal; lra | reflexivity].
    + exfalso. apply Hn. rewrite Rabs_pos_eq; lra.
  - cbn [cartPosition cartVelocity]. rewrite (mul_one_l A HA).
    split; [f_equal; lra | reflexivity].
Qed.

Lemma limitPosition_left (s : t) :
  laws A ->
  lt (cartPosition s) (Num (-5)) = true ->
  cartPosition (limitPosition A s) = Num (-5)
  /\ cartVelocity (limitPosition A s) = mul A (cartVelocity s) (Num (-0.5)).
Proof.
  intros HA H. unfold limitPosition, maxCartPosition.
  destruct (cartPosition s) as [r | | |]; simpl in *; try discriminate.
  - destruct (Rgt_dec (-5) r) as [Hr | _]; [| discriminate].
    destruct (Rgt_dec (Rabs r) 5.0) as [_ | Hn].
    + cbn [cartPosition cartVelocity]. rewrite sign_neg by lra.
      rewrite (mul_minus_one_l A HA). split; [simpl; f_equal; lra | reflexivity].
    + exfalso. apply Hn. rewrite Rabs_left; lra.
  - cbn [cartPosition cartVelocity]. rewrite (mul_minus_one_l A HA).
    split; [simpl; f_equal; lra | reflexivity].
Qed.

Lemma position_cases (x : number) :
  x = NaN \/ within (-5) 5 x
  \/ gt x (Num 5) = true \/ lt x (Num (-5)) = true.
Proof.
  destruct x as [r | | |]; simpl.
  - right. destruct (Rgt_dec r 5); [right; left; reflexivity |].
    destruct (Rgt_dec (-5) r); [right; right; reflexivity |].
    left. lra.
  - right. right. left. reflexivity.
  - right. right. right. reflexivity.
  - left. reflexivity.
Qed.

Lemma limitPosition_within (s : t) :
  laws A ->
  cartPosition s <> NaN -> within (-5) 5 (cartPosition (limitPosition A s)).
Proof.
  intros HA Hn.
  destruct (position_cases (cartPosition s)) as [E | [H | [H | H]]].
  - contradiction.
  - rewrite limitPosition_inside; assumption.
  - destruct (limitPosition_right s HA H) as [-> _]. simpl. lra.
  - destruct (limitPosition_left s HA H) as [-> _]. simpl. lra.
Qed.

End Guards.

(** *** The angle after [update] *)

(** C2 (amended): with any arithmetic that obeys the laws, an [update]
    that returns leaves [pendulumAngle] either [NaN], exactly when the
    RK4 step produced [NaN], or a number in the closed interval from
    [- PI] to [PI].  It returns at once when the angle of the RK4 step is
    [NaN] or already in that interval, and within [bound] iterations of
    each loop when the angle is a number of magnitude at most [bound] up
    to which the shifts make progress.  It does not return when the angle
    lies beyond [PI] on either side and is left unchanged by the shift. *)
Theorem angle_wrap_returned (A : arithmetic) (fuel : nat) (s : t)
  (force dt : number) :
  laws A ->
  let integrated :=
    pendulumAngle
      (integrate A (checkFailure A s) (clampForce force) (clampDt dt)) in
  (forall s',
      update A fuel s force dt = Some s' ->
      (integrated = NaN /\ pendulumAngle s' = NaN)
      \/ (integrated <> NaN /\ within (- PI) PI (pendulumAngle s')))
  /\ (integrated = NaN \/ within (- PI) PI integrated ->
      exists s',
        update A fuel s force dt = Some s' /\ pendulumAngle s' = integrated)
  /\ (forall bound,
         progress bound A ->
         within (- bound) bound integrated -> bound <= INR fuel ->
         exists s', update A fuel s force dt = Some s')
  /\ ((gt integrated (Num PI) = true
       /\ sub A integrated (mul A (Num 2) (Num PI)) = integrated)
      \/ (lt integrated (neg (Num PI)) = true
          /\ add A integrated (mul A (Num 2) (Num PI)) = integrated) ->
      update A fuel s force dt = None).
Proof.
  intros HA integrated.
  assert (Ei : pendulumAngle (afterPositionLimit A s force dt) = integrated)
    by apply afterPositionLimit_angle.
  split; [| split; [| split]].
  - intros s' H. destruct (update_fields A fuel s s' force dt H) as [Hn _].
    rewrite Ei in Hn. apply (normalizeAngle_guard A fuel _ _ HA Hn).
  - intros H. exists (afterPositionLimit A s force dt). split.
    + apply update_at_once. rewrite Ei. assumption.
    + assumption.
  - intros bound HP Hin Hfuel. apply update_returns. rewrite Ei.
    apply (normalizeAngle_returns A bound fuel integrated HP Hin Hfuel).
  - intros H. apply update_never. rewrite Ei.
    apply normalizeAngle_stuck. assumption.
Qed.

(** C2 (witness): with exact arithmetic, a pendulum built at an angle of
    4 rad and updated with a zero time step is brought back into the
    interval within 7 iterations. *)
Lemma angle_wrap_returned_witness :
  exists s',
    update exact 7 (lift GuardCases.tilted)
      (Num 0) (Num 0) = Some s'
    /\ within (- PI) PI (pendulumAngle s').
Proof.
  pose proof (angle_wrap_returned exact 7
                (lift GuardCases.tilted)
                (Num 0) (Num 0) exact_laws) as H.
  cbv zeta in H.
  assert (Ei : pendulumAngle
                 (integrate exact
                    (checkFailure exact
                       (lift GuardCases.tilted))
                    (clampForce (Num 0)) (clampDt (Num 0)))
               = Num 4).
  { rewrite ExactPendulum.checkFailure_exact, ExactPendulum.clampForce_exact,
      ExactPendulum.clampDt_exact, PendulumExtra.clampDt_zero.
    rewrite ExactPendulum.integrate_exact.
    - rewrite PendulumExtra.integrate_zero_dt.
      unfold InvertedPendulum.checkFailure.
      destruct (Rgt_dec _ _); reflexivity.
    - unfold InvertedPendulum.checkFailure.
      destruct (Rgt_dec _ _); simpl; lra. }
  rewrite Ei in H. destruct H as [Hguard [_ [Hret _]]].
  destruct (Hret 7 (exact_progress 7)) as [s' Hs'].
  - simpl. lra.
  - simpl. lra.
  - exists s'. split; [assumption |].
    destruct (Hguard s' Hs') as [[E _] | [_ Hin]]; [discriminate | assumption].
Defined.

(** *** A pendulum without length

    [new InvertedPendulum(1.0, 0.1, 0)] under no force.  The first RK4
    slope divides a positive numerator by [length * denominator = 0]. *)

Lemma exactAdd_NaN_r (x : number) : exactAdd x NaN = NaN.
Proof. destruct x; reflexivity. Qed.

Lemma exactMul_NaN_r (x : number) : exactMul x NaN = NaN.
Proof. destruct x; reflexivity. Qed.

Lemma derivative_dx (A : arithmetic) (s : t) (force dt : number)
  (k : option deriv) :
  dx (derivative A s force dt k) = stage A (cartVelocity s) dt k dv.
Proof. unfold derivative. destruct (lt _ _); reflexivity. Qed.

Lemma derivative_dtheta (A : arithmetic) (s : t) (force dt : number)
  (k : option deriv) :
  dtheta (derivative A s force dt k)
  = stage A (pendulumAngularVelocity s) dt k domega.
Proof. unfold derivative. destruct (lt _ _); reflexivity. Qed.

Lemma unit_denominator (c : R) : ~ 0.001 > Rabs (1.0 + 0.1 + - (0.1 * c * c)) \/ 1 < c * c.
Proof.
  destruct (Rlt_dec 1 (c * c)) as [H | H]; [right; assumption | left].
  rewrite Rabs_pos_eq; lra.
Qed.

Lemma cos_sqr_le_1 (x : R) : ~ 1 < Rtrigo_def.cos x * Rtrigo_def.cos x.
Proof.
  pose proof (sin2_cos2 x) as H. pose proof (Rle_0_sqr (Rtrigo_def.sin x)) as Hs.
  unfold Rsqr in *. lra.
Qed.

(** The first slope: the angular acceleration is [Infinity]. *)
Lemma zeroLength_first_slope :
  exists a b c : R,
    derivative exact (lift PendulumCases.zeroLength) (Num 0) (Num 0) None
    = mkDeriv (Num a) (Num b) (Num c) PosInf.
Proof.
  unfold derivative, stage, PendulumCases.zeroLength, InvertedPendulum.new.
  ExactPendulum.exact_ops. ExactPendulum.real_fields.
  set (theta := 0.1 + 0).
  destruct (Rgt_dec 0.001 _) as [Hg | _].
  { destruct (unit_denominator (Rtrigo_def.cos theta)) as [H | H];
      [contradiction | destruct (cos_sqr_le_1 theta H)]. }
  destruct (Req_dec_T (1.0 + 0.1 + - (0.1 * Rtrigo_def.cos theta * Rtrigo_def.cos theta)) 0)
    as [E | _].
  { destruct (unit_denominator (Rtrigo_def.cos theta)) as [H | H];
      [| destruct (cos_sqr_le_1 theta H)].
    exfalso. apply H. rewrite E, Rabs_R0. lra. }
  destruct (Req_dec_T (0 * _) 0) as [_ | Hn]; [| exfalso; apply Hn; ring].
  assert (Hsin : 0 < Rtrigo_def.sin theta).
  { apply sin_gt_0; unfold theta; pose proof PI_above_3; lra. }
  unfold signedInf.
  destruct (Rlt_dec 0 _) as [_ | Hn].
  - do 3 eexists. reflexivity.
  - exfalso. apply Hn. rewrite !Rplus_0_r, Rabs_R0. nra.
Qed.

(** The second slope, half a step on: the angular velocity is
    [Infinity], and [massPendulum * length * omega = 0 * Infinity] makes
    both accelerations [NaN]. *)
Lemma zeroLength_second_slope (a b c h : R) :
  0 < h ->
  let k2 := derivative exact (lift PendulumCases.zeroLength) (Num 0) (Num h)
              (Some (mkDeriv (Num a) (Num b) (Num c) PosInf)) in
  dv k2 = NaN /\ domega k2 = NaN.
Proof.
  intros Hh. unfold derivative, stage, PendulumCases.zeroLength, InvertedPendulum.new.
  ExactPendulum.exact_ops. ExactPendulum.real_fields.
  set (theta := 0.1 + c * h).
  assert (Einf : signedInf h true = PosInf).
  { unfold signedInf. destruct (Rlt_dec 0 h); [reflexivity | contradiction]. }
  rewrite Einf. ExactPendulum.exact_ops.
  assert (Ezero : signedInf (0.1 * 0) true = NaN).
  { unfold signedInf. destruct (Rlt_dec 0 (0.1 * 0)); [lra |].
    destruct (Rlt_dec (0.1 * 0) 0); [lra | reflexivity]. }
  rewrite Ezero.
  destruct (Rgt_dec 0.001 _) as [Hg | _].
  { destruct (unit_denominator (Rtrigo_def.cos theta)) as [H | H];
      [contradiction | destruct (cos_sqr_le_1 theta H)]. }
  split; reflexivity.
Qed.

(** A [NaN] acceleration in the second slope makes the cart velocity of
    the third stage, hence the third [dx], [NaN]; a [NaN] angular
    acceleration does the same to the third [dtheta]. *)
Lemma integrate_NaN (s : t) (force dt : number) :
  let k1 := derivative exact s force (Num 0) None in
  let k2 := derivative exact s force (exactDiv dt (Num 2)) (Some k1) in
  dv k2 = NaN -> domega k2 = NaN ->
  cartPosition (integrate exact s force dt) = NaN
  /\ pendulumAngle (integrate exact s force dt) = NaN.
Proof.
  intros k1 k2 Hv Hw. unfold integrate. fold k1. 
  change (div exact dt (Num 2)) with (exactDiv dt (Num 2)). fold k2.
  cbn [cartPosition pendulumAngle].
  set (k3 := derivative exact s force (exactDiv dt (Num 2)) (Some k2)).
  assert (Hx3 : dx k3 = NaN).
  { unfold k3. rewrite derivative_dx. unfold stage. rewrite Hv.
    cbn [mul add exact exactMul]. apply exactAdd_NaN_r. }
  assert (Ht3 : dtheta k3 = NaN).
  { unfold k3. rewrite derivative_dtheta. unfold stage. rewrite Hw.
    cbn [mul add exact exactMul]. apply exactAdd_NaN_r. }
  rewrite Hx3, Ht3. cbn [mul add exact exactMul].
  rewrite !exactAdd_NaN_r. cbn [exactAdd]. rewrite !exactMul_NaN_r, !exactAdd_NaN_r.
  split; reflexivity.
Qed.


(** *** The position after [update] *)



End PendulumGuards.

(** ** The clamp of [calculate] *)

Module PIDGuards.
Import Js JsPID JsFacts.

(** *** The clamp *)

Lemma Num_inj (a b : R) : Num a = Num b -> a = b.
Proof. intros H. injection H as H. assumption. Qed.

(** [Math.max(-50, Math.min(50, o))] for each kind of [o]. *)
Lemma saturate_spec (o : number) :
  (saturate o = NaN <-> o = NaN)
  /\ (o <> NaN -> within (-50) 50 (saturate o))
  /\ (saturate o = Num 50 <-> gt o (Num 50) = true \/ o = Num 50)
  /\ (saturate o = Num (-50) <-> lt o (Num (-50)) = true \/ o = Num (-50))
  /\ (within (-50) 50 o -> saturate o = o).
Proof.
  unfold saturate, outputMin, outputMax.
  destruct o as [r | | |]; cbn [max min gt lt within].
  - assert (Hclamp : -50 <= Rmax (-50) (Rmin 50 r) <= 50
                     /\ (r >= 50 -> Rmax (-50) (Rmin 50 r) = 50)
                     /\ (r <= -50 -> Rmax (-50) (Rmin 50 r) = -50)
                     /\ (-50 <= r <= 50 -> Rmax (-50) (Rmin 50 r) = r)).
    { unfold Rmax, Rmin.
      destruct (Rle_dec 50 r); destruct (Rle_dec (-50) _); repeat split; intros; lra. }
    destruct Hclamp as [Hin [Hhi [Hlo Hmid]]].
    split; [split; intros H; discriminate |].
    split; [intros _; assumption |].
    split; [| split].
    + split.
      * intros H. apply Num_inj in H.
        destruct (Rgt_dec r 50); [left; reflexivity | right].
        f_equal. destruct (Rle_dec r (-50)); [rewrite Hlo in H; lra |].
        rewrite Hmid in H; lra.
      * intros [H | H].
        -- destruct (Rgt_dec r 50); [| discriminate]. f_equal. apply Hhi. lra.
        -- apply Num_inj in H. f_equal. apply Hhi. lra.
    + split.
      * intros H. apply Num_inj in H.
        destruct (Rgt_dec (-50) r); [left; reflexivity | right].
        f_equal. destruct (Rle_dec 50 r); [rewrite Hhi in H; lra |].
        rewrite Hmid in H; lra.
      * intros [H | H].
        -- destruct (Rgt_dec (-50) r); [| discriminate]. f_equal. apply Hlo. lra.
        -- apply Num_inj in H. f_equal. apply Hlo. lra.
    + intros H. f_equal. apply Hmid. assumption.
  - rewrite Rmax_right by lra.
    split; [split; intros H; discriminate |].
    split; [intros _; lra |].
    split; [split; [left; reflexivity | reflexivity] |].
    split; [| contradiction].
    split; [intros H; apply Num_inj in H; lra | intros [H | H]; discriminate].
  - split; [split; intros H; discriminate |].
    split; [intros _; lra |].
    split; [| split; [split; [left; reflexivity | reflexivity] | contradiction]].
    split; [intros H; apply Num_inj in H; lra | intros [H | H]; discriminate].
  - split; [split; reflexivity |].
    split; [intros H; contradiction |].
    split; [| split; [| contradiction]];
      (split; [intros H; discriminate | intros [H | H]; discriminate]).
Qed.

(** The time step is [NaN] or at least 0.001, and only in the second case
    is the derivative block entered. *)
Lemma dt_cases (A : arithmetic) (c : t) (currentTime : number) :
  (dt A c currentTime = NaN /\ gt (dt A c currentTime) (Num 0) = false)
  \/ (within 0.001 0.1 (dt A c currentTime)
      /\ gt (dt A c currentTime) (Num 0) = true).
Proof.
  unfold dt.
  destruct (if same (previousTime c) (Num 0) then Num 0.016
            else sub A currentTime (previousTime c)) as [r | | |];
    cbn [max min gt within].
  - right.
    assert (H : 0.001 <= Rmax 0.001 (Rmin r 0.1) <= 0.1).
    { unfold Rmax, Rmin. destruct (Rle_dec r 0.1); destruct (Rle_dec 0.001 _); lra. }
    split; [assumption |].
    destruct (Rgt_dec _ 0); [reflexivity | lra].
  - right. split; [unfold Rmax; destruct (Rle_dec _ _); lra |].
    destruct (Rgt_dec _ 0) as [_ | Hn]; [reflexivity |].
    exfalso. apply Hn. unfold Rmax. destruct (Rle_dec _ _); lra.
  - right. split; [lra |]. destruct (Rgt_dec 0.001 0); [reflexivity | lra].
  - left. split; reflexivity.
Qed.

(** *** The returned value *)


(** *** Exact arithmetic and the model on real numbers *)

Ltac exact_pid_ops :=
  cbn [add sub mul div exact exactAdd exactSub exactMul exactDiv
       neg abs signOf lt gt max min same
       lift kp ki kd integral previousError previousTime filteredDerivative
       useAngleWrapping].

Lemma dt_exact (c : PIDController.t) (time : R) :
  dt exact (lift c) (Num time) = Num (PIDController.dt c time).
Proof.
  unfold dt, PIDController.dt, PIDController.rawDt. exact_pid_ops.
  destruct (Req_dec_T _ 0); reflexivity.
Qed.

Lemma output_exact (c : PIDController.t) (e d : R) :
  0 < d ->
  output exact (lift c) (Num e) (Num d) = Num (PIDController.output c e d).
Proof.
  intros Hd.
  unfold output, P, I, D, derivative, newFilteredDerivative, clampedIntegral,
    PIDController.output, PIDController.P, PIDController.I, PIDController.D,
    PIDController.derivative, PIDController.newFilteredDerivative,
    PIDController.clampedIntegral,
    derivativeFilterAlpha, integralMin, integralMax.
  exact_pid_ops.
  destruct (Rgt_dec d 0); [| lra].
  destruct (Req_dec_T d 0); [lra |]. reflexivity.
Qed.

Lemma newFilteredDerivative_exact (c : PIDController.t) (e d : R) :
  0 < d ->
  newFilteredDerivative exact (lift c) (Num e) (Num d)
  = Num (PIDController.newFilteredDerivative c e d).
Proof.
  intros Hd.
  unfold newFilteredDerivative, PIDController.newFilteredDerivative,
    derivativeFilterAlpha.
  exact_pid_ops.
  destruct (Rgt_dec d 0); [| lra].
  destruct (Req_dec_T d 0); [lra |]. reflexivity.
Qed.

Lemma backCalculated_exact (c : PIDController.t) (e d : R) :
  0 < d ->
  backCalculated exact (lift c) (Num e) (Num d)
  = Num (PIDController.backCalculated c e d).
Proof.
  intros Hd. unfold backCalculated. rewrite (output_exact c e d Hd).
  unfold clampedIntegral, PIDController.backCalculated,
    PIDController.clampedIntegral, saturate, PIDController.saturate,
    outputMin, outputMax, integralMin, integralMax,
    PIDController.outputMin, PIDController.outputMax.
  exact_pid_ops.
  destruct (Req_dec_T (PIDController.output c e d) _); cbn [negb andb];
    [reflexivity |].
  destruct (Req_dec_T (sign e) _); reflexivity.
Qed.

(** With exact arithmetic, a call on numbers returns the number, and
    leaves the controller, of the model on real numbers. *)
Lemma calculateWith_exact (c : PIDController.t) (e time : R) :
  let d := PIDController.dt c time in
  calculateWith exact (lift c) (Num e) (Num time)
  = (Num (PIDController.saturate (PIDController.output c e d)),
     lift (PIDController.mk
             (PIDController.kp c) (PIDController.ki c) (PIDController.kd c)
             (PIDController.backCalculated c e d) e time
             (PIDController.newFilteredDerivative c e d)
             (PIDController.useAngleWrapping c))).
Proof.
  intros d. unfold calculateWith. rewrite dt_exact. fold d.
  assert (Hd : 0 < d) by (pose proof (PIDProofs.dt_range c time); unfold d; lra).
  rewrite (output_exact c e d Hd), (backCalculated_exact c e d Hd),
    (newFilteredDerivative_exact c e d Hd).
  reflexivity.
Qed.

(** An infinite error with [kp = 1000] and [kd = -160]: [P] is
    [Infinity], [D] is [-Infinity], and the call returns [NaN]. *)
Lemma cancelling_infinite_error :
  fst (calculateWith exact (lift PIDCases.cancelling) PosInf (Num 1)) = NaN.
Proof.
  unfold calculateWith. cbn [fst]. rewrite dt_exact.
  rewrite (PIDProofs.dt_first_call PIDCases.cancelling 1 eq_refl).
  unfold output, P, I, D, derivative, newFilteredDerivative, clampedIntegral,
    derivativeFilterAlpha, integralMin, integralMax, PIDCases.cancelling,
    PIDController.new.
  exact_pid_ops.
  cbn [PIDController.kp PIDController.ki PIDController.kd
       PIDController.integral PIDController.previousError
       PIDController.filteredDerivative].
  unfold signedInf.
  repeat match goal with
         | |- context [Rlt_dec ?a ?b] => destruct (Rlt_dec a b); try lra
         | |- context [Rgt_dec ?a ?b] => destruct (Rgt_dec a b); try lra
         end.
  cbn [exactAdd exactMul max min]. unfold signedInf.
  repeat match goal with
         | |- context [Rlt_dec ?a ?b] => destruct (Rlt_dec a b); try lra
         end.
  reflexivity.
Qed.


End PIDGuards.

(** ** Further guards of [update] and [derivative] *)

Module GuardExtra.
Import Js JsPendulum JsFacts.

Lemma exact_contraction : contraction exact.
Proof.
  constructor.
  - intros r c Hc. simpl.
    assert (H : Rabs (r * c) <= Rabs r).
    { rewrite Rabs_mult. pose proof (Rabs_pos r).
      replace (Rabs r) with (Rabs r * 1) at 2 by ring.
      apply Rmult_le_compat_l; assumption. }
    apply Rabs_bound. assumption.
  - intros x. reflexivity.
Qed.

(** *** Velocity limits *)

Section Velocities.

Variable A : arithmetic.
Hypothesis HA : laws A.
Hypothesis HC : contraction A.

(** One soft limit: [Math.abs(v) > limit ? Math.sign(v) * limit * 0.95 : v]
    for a positive [limit]. *)
Lemma soft_limit (limit : R) (v : number) :
  0 < limit ->
  let limited :=
    if gt (abs v) (Num limit)
    then mul A (mul A (signOf v) (Num limit)) (Num 0.95)
    else v in
  (v = NaN -> limited = NaN)
  /\ (v <> NaN -> within (- limit) limit limited)
  /\ (gt v (Num limit) = true -> limited = mul A (Num limit) (Num 0.95))
  /\ (lt v (Num (- limit)) = true -> limited = mul A (Num (- limit)) (Num 0.95))
  /\ (within (- limit) limit v -> limited = v).
Proof.
  intros Hl limited.
  assert (Hup : within (- limit) limit (mul A (Num limit) (Num 0.95))).
  { pose proof (mul_shrink A HC limit 0.95) as H.
    rewrite (Rabs_pos_eq limit) in H by lra. apply H.
    rewrite Rabs_pos_eq; lra. }
  assert (Hdown : within (- limit) limit (mul A (Num (- limit)) (Num 0.95))).
  { pose proof (mul_shrink A HC (- limit) 0.95) as H.
    rewrite Rabs_Ropp, (Rabs_pos_eq limit) in H by lra. apply H.
    rewrite Rabs_pos_eq; lra. }
  unfold limited. destruct v as [r | | |]; cbn [abs gt lt signOf within].
  - destruct (Rgt_dec (Rabs r) limit) as [Hbig | Hsmall].
    + destruct (Rgt_dec r limit) as [Hr | Hr].
      * rewrite sign_pos by lra. rewrite (mul_one_l A HA).
        destruct (Rgt_dec (- limit) r); [lra |].
        split; [discriminate |]. split; [intros _; assumption |].
        split; [reflexivity |]. split; [discriminate |].
        intros H. lra.
      * assert (Hneg : r < - limit).
        { unfold Rabs in Hbig. destruct (Rcase_abs r); lra. }
        rewrite sign_neg by lra. rewrite (mul_minus_one_l A HA). cbn [neg].
        destruct (Rgt_dec (- limit) r); [| lra].
        split; [discriminate |]. split; [intros _; assumption |].
        split; [discriminate |]. split; [reflexivity |].
        intros H. lra.
    + assert (Hin : - limit <= r <= limit).
      { apply Rabs_bound. lra. }
      destruct (Rgt_dec r limit); [lra |].
      destruct (Rgt_dec (- limit) r); [lra |].
      split; [discriminate |]. split; [intros _; assumption |].
      split; [discriminate |]. split; [discriminate |]. reflexivity.
  - rewrite (mul_one_l A HA).
    split; [discriminate |]. split; [intros _; assumption |].
    split; [reflexivity |]. split; [discriminate |]. contradiction.
  - rewrite (mul_minus_one_l A HA). cbn [neg].
    split; [discriminate |]. split; [intros _; assumption |].
    split; [discriminate |]. split; [reflexivity |]. contradiction.
  - split; [reflexivity |]. split; [intros H; contradiction |].
    split; [discriminate |]. split; [discriminate |]. contradiction.
Qed.

(** The bounce keeps a velocity that is [NaN] or within 10 so. *)
Lemma bounce_within (v : number) :
  v = NaN \/ within (-10) 10 v ->
  (v = NaN /\ mul A v (Num (-0.5)) = NaN)
  \/ (v <> NaN /\ within (-10) 10 (mul A v (Num (-0.5)))).
Proof.
  intros [-> | H].
  - left. split; [reflexivity | apply (mul_NaN_l A HC)].
  - right. destruct v as [r | | |]; simpl in H; try contradiction.
    split; [discriminate |].
    pose proof (mul_shrink A HC r (-0.5)) as Hs.
    assert (Hc : Rabs (-0.5) <= 1).
    { rewrite Rabs_left; lra. }
    specialize (Hs Hc).
    assert (Hr : Rabs r <= 10) by (apply Rabs_le; lra).
    destruct (mul A (Num r) (Num (-0.5))); simpl in *; try contradiction. lra.
Qed.

End Velocities.

Lemma limitPosition_angularVelocity (A : arithmetic) (s : t) :
  pendulumAngularVelocity (limitPosition A s) = pendulumAngularVelocity s.
Proof. unfold limitPosition. destruct (gt _ _); reflexivity. Qed.

Lemma update_velocities (A : arithmetic) (fuel : nat) (s s' : t)
  (force dt : number) :
  update A fuel s force dt = Some s' ->
  cartVelocity s' = cartVelocity (afterPositionLimit A s force dt)
  /\ pendulumAngularVelocity s'
     = pendulumAngularVelocity (afterPositionLimit A s force dt).
Proof.
  unfold update. destruct (normalizeAngle A fuel _) as [angle |]; [| discriminate].
  intros H. injection H as <-. split; reflexivity.
Qed.

(** X4: with any arithmetic that obeys the laws and in which a factor of
    magnitude at most 1 does not increase a magnitude, an [update] that
    returns leaves the velocities the limits produced.  The cart velocity
    ends [NaN] exactly when the RK4 step made it [NaN], and otherwise
    within 10; the angular velocity ends [NaN] when the RK4 step made it
    [NaN], and otherwise within 20: beyond 20 it becomes the product of 20
    and 0.95, below -20 that of -20 and 0.95, and within the limits it is
    kept as integrated. *)
Theorem velocity_limits (A : arithmetic) (fuel : nat) (s : t)
  (force dt : number) :
  laws A -> contraction A ->
  let integrated :=
    integrate A (checkFailure A s) (clampForce force) (clampDt dt) in
  let after := afterPositionLimit A s force dt in
  let w := pendulumAngularVelocity integrated in
  (forall s',
      update A fuel s force dt = Some s' ->
      cartVelocity s' = cartVelocity after
      /\ pendulumAngularVelocity s' = pendulumAngularVelocity after)
  /\ (cartVelocity integrated = NaN <-> cartVelocity after = NaN)
  /\ (cartVelocity integrated <> NaN -> within (-10) 10 (cartVelocity after))
  /\ (w = NaN -> pendulumAngularVelocity after = NaN)
  /\ (w <> NaN -> within (-20) 20 (pendulumAngularVelocity after))
  /\ (gt w (Num 20) = true ->
      pendulumAngularVelocity after = mul A (Num 20) (Num 0.95))
  /\ (lt w (Num (-20)) = true ->
      pendulumAngularVelocity after = mul A (Num (-20)) (Num 0.95))
  /\ (within (-20) 20 w -> pendulumAngularVelocity after = w).
Proof.
  intros HA HC integrated after w.
  assert (E10 : 10.0 = 10) by lra.
  assert (E20 : 20.0 = 20) by lra.
  assert (Ew : pendulumAngularVelocity after
               = if gt (abs w) (Num 20)
                 then mul A (mul A (signOf w) (Num 20)) (Num 0.95)
                 else w).
  { unfold after, afterPositionLimit. rewrite limitPosition_angularVelocity.
    unfold beforePositionLimit. fold integrated.
    unfold limitVelocities, maxAngularVelocity. rewrite E20. reflexivity. }
  set (limited := if gt (abs (cartVelocity integrated)) (Num 10)
                  then mul A (mul A (signOf (cartVelocity integrated)) (Num 10))
                         (Num 0.95)
                  else cartVelocity integrated).
  assert (Ev : cartVelocity after = limited
               \/ cartVelocity after = mul A limited (Num (-0.5))).
  { unfold after, afterPositionLimit, limitPosition.
    assert (El : cartVelocity (beforePositionLimit A s force dt) = limited).
    { unfold beforePositionLimit. fold integrated.
      unfold limitVelocities, maxCartVelocity. rewrite E10. reflexivity. }
    destruct (gt (abs (cartPosition (beforePositionLimit A s force dt)))
                maxCartPosition);
      [right | left]; cbn [cartVelocity]; rewrite El; reflexivity. }
  destruct (soft_limit A HA HC 10 (cartVelocity integrated)) as [Hn [Hin _]];
    [lra |].
  fold limited in Hn, Hin.
  destruct (soft_limit A HA HC 20 w) as [Hwn [Hwin [Hwhi [Hwlo Hwmid]]]]; [lra |].
  rewrite <- Ew in Hwn, Hwin, Hwhi, Hwlo, Hwmid.
  replace (- (10)) with (-10) in Hin by lra.
  replace (- (20)) with (-20) in Hwin, Hwlo, Hwmid by lra.
  split; [intros s' H; apply (update_velocities A fuel s s' force dt H) |].
  split; [| split; [| repeat split; assumption]].
  - split; intros H.
    + specialize (Hn H).
      destruct Ev as [-> | ->]; [assumption |].
      rewrite Hn. apply (mul_NaN_l A HC).
    + destruct (cartVelocity integrated) as [r | | |] eqn:E; try reflexivity;
        exfalso;
        (assert (Hl : within (-10) 10 limited) by (apply Hin; discriminate));
        (destruct Ev as [Ev | Ev];
         [rewrite Ev in H; rewrite H in Hl; exact Hl |
          destruct (bounce_within A HC limited (or_intror Hl)) as [[Hx _] | [_ Hb]];
          [rewrite Hx in Hl; exact Hl | rewrite <- Ev, H in Hb; exact Hb]]).
  - intros H. specialize (Hin H).
    destruct Ev as [-> | ->]; [assumption |].
    destruct (bounce_within A HC limited (or_intror Hin)) as [[Hx _] | [_ Hb]];
      [rewrite Hx in Hin; contradiction | assumption].
Qed.

(** X4 (witness): with exact arithmetic, an upright pendulum spinning at
    25 rad/s leaves a step of length zero at [20 * 0.95 = 19] rad/s. *)
Lemma velocity_limits_witness :
  pendulumAngularVelocity
    (afterPositionLimit exact (lift GuardCases.spinning) (Num 0) (Num 0))
  = Num (20 * 0.95).
Proof.
  set (s := GuardCases.spinning).
  pose proof (velocity_limits exact 0 (lift s) (Num 0) (Num 0)
                exact_laws exact_contraction) as H.
  cbv zeta in H.
  assert (Ei : integrate exact (checkFailure exact (lift s))
                 (clampForce (Num 0)) (clampDt (Num 0)) = lift s).
  { rewrite ExactPendulum.checkFailure_exact, ExactPendulum.clampForce_exact,
      ExactPendulum.clampDt_exact, PendulumExtra.clampDt_zero.
    rewrite PendulumProofs.checkFailure_upright.
    - rewrite ExactPendulum.integrate_exact
        by (unfold s, GuardCases.spinning; simpl; lra).
      rewrite PendulumExtra.integrate_zero_dt. reflexivity.
    - unfold s, GuardCases.spinning. simpl. rewrite Rabs_R0.
      pose proof PI_RGT_0. lra. }
  rewrite Ei in H.
  destruct H as [_ [_ [_ [_ [_ [Hhi _]]]]]].
  rewrite Hhi; [reflexivity |].
  unfold s, GuardCases.spinning. simpl.
  destruct (Rgt_dec 25 20); [reflexivity | lra].
Defined.

(** *** The guard of [derivative] *)



End GuardExtra.

(** ** The guards of the basic [update] *)

Module BasicGuards.
Import Js JsBasicPendulum JsFacts.

Ltac exact_basic_ops :=
  cbn [add sub mul div sin cos exact exactAdd exactSub exactMul exactDiv
       exactSin exactCos neg abs signOf lt gt max min same
       lift liftDeriv massCart massPendulum length gravity friction
       airResistance cartPosition cartVelocity pendulumAngle
       pendulumAngularVelocity dx dv dtheta domega option_map].

Lemma basic_stage_exact (cur dt : R) (k : option BasicPendulum.deriv)
  (f : deriv -> number) (g : BasicPendulum.deriv -> R) :
  (forall k, f (liftDeriv k) = Num (g k)) ->
  stage exact (Num cur) (Num dt) (option_map liftDeriv k) f
  = Num (BasicPendulum.stage cur dt k g).
Proof.
  intros H. unfold stage, BasicPendulum.stage.
  destruct k as [k |]; cbn [option_map]; [rewrite H |]; reflexivity.
Qed.

Lemma basic_denominator_positive (s : BasicPendulum.t) (theta : R) :
  0 < BasicPendulum.massCart s -> 0 <= BasicPendulum.massPendulum s ->
  0 < BasicPendulum.denominator s theta.
Proof.
  intros Hc Hp.
  pose proof (PendulumProofs.denominator_floor (BasicPendulum.enhanced s) theta Hp)
    as H.
  simpl in H. unfold InvertedPendulum.denominator in H.
  unfold BasicPendulum.denominator. simpl in *. lra.
Qed.

Lemma basic_derivative_exact (s : BasicPendulum.t) (force dt : R)
  (k : option BasicPendulum.deriv) :
  BasicPendulum.length s <> 0 ->
  0 < BasicPendulum.massCart s -> 0 <= BasicPendulum.massPendulum s ->
  derivative exact (lift s) (Num force) (Num dt) (option_map liftDeriv k)
  = liftDeriv (BasicPendulum.derivative s force dt k).
Proof.
  intros Hl Hc Hp. unfold derivative, BasicPendulum.derivative.
  cbn [lift cartVelocity pendulumAngle pendulumAngularVelocity].
  rewrite (basic_stage_exact _ dt k dv BasicPendulum.dv) by reflexivity.
  rewrite (basic_stage_exact _ dt k dtheta BasicPendulum.dtheta) by reflexivity.
  rewrite (basic_stage_exact _ dt k domega BasicPendulum.domega) by reflexivity.
  set (v := BasicPendulum.stage _ dt k BasicPendulum.dv).
  set (theta := BasicPendulum.stage _ dt k BasicPendulum.dtheta).
  set (omega := BasicPendulum.stage _ dt k BasicPendulum.domega).
  exact_basic_ops.
  change (BasicPendulum.massCart s + BasicPendulum.massPendulum s
          + - (BasicPendulum.massPendulum s * Rtrigo_def.cos theta
               * Rtrigo_def.cos theta))
    with (BasicPendulum.denominator s theta).
  pose proof (basic_denominator_positive s theta Hc Hp) as Hd.
  destruct (Req_dec_T (BasicPendulum.denominator s theta) 0) as [E | _]; [lra |].
  destruct (Req_dec_T _ 0) as [E | _].
  { apply Rmult_integral in E. destruct E; [contradiction | lra]. }
  reflexivity.
Qed.

Lemma basic_integrate_exact (s : BasicPendulum.t) (force dt : R) :
  BasicPendulum.length s <> 0 ->
  0 < BasicPendulum.massCart s -> 0 <= BasicPendulum.massPendulum s ->
  integrate exact (lift s) (Num force) (Num dt)
  = lift (BasicPendulum.integrate s force dt).
Proof.
  intros Hl Hc Hp. unfold integrate, BasicPendulum.integrate.
  assert (Half : div exact (Num dt) (Num 2) = Num (dt / 2)).
  { exact_basic_ops. destruct (Req_dec_T 2 0); [lra | reflexivity]. }
  assert (Sixth : div exact (Num dt) (Num 6) = Num (dt / 6)).
  { exact_basic_ops. destruct (Req_dec_T 6 0); [lra | reflexivity]. }
  rewrite Half, Sixth.
  pose proof (fun dt k => basic_derivative_exact s force dt k Hl Hc Hp) as Hk.
  pose proof (Hk 0 None) as H1. cbn [option_map] in H1. rewrite H1.
  pose proof (fun dt k => Hk dt (Some k)) as HS. cbn [option_map] in HS.
  rewrite !HS. reflexivity.
Qed.

Lemma basic_integrate_zero_dt (s : BasicPendulum.t) (force : R) :
  BasicPendulum.integrate s force 0 = s.
Proof.
  unfold BasicPendulum.integrate. destruct s. cbv zeta.
  cbn [BasicPendulum.massCart BasicPendulum.massPendulum BasicPendulum.length
       BasicPendulum.gravity BasicPendulum.friction BasicPendulum.airResistance
       BasicPendulum.cartPosition BasicPendulum.cartVelocity
       BasicPendulum.pendulumAngle BasicPendulum.pendulumAngularVelocity].
  f_equal; unfold Rdiv; ring.
Qed.

Section Guards.

Variable A : arithmetic.

Lemma basic_limitPosition_angle (s : t) :
  pendulumAngle (limitPosition A s) = pendulumAngle s.
Proof. unfold limitPosition. destruct (gt _ _); reflexivity. Qed.

Lemma basic_limitPosition_NaN (s : t) :
  cartPosition s = NaN -> limitPosition A s = s.
Proof. intros H. unfold limitPosition. rewrite H. reflexivity. Qed.

Lemma basic_limitPosition_inside (s : t) :
  within (-5) 5 (cartPosition s) -> limitPosition A s = s.
Proof.
  intros H. unfold limitPosition, maxCartPosition.
  destruct (cartPosition s) as [r | | |]; simpl in *; try contradiction.
  destruct (Rgt_dec (Rabs r) 5.0) as [Hgt | _]; [| reflexivity].
  unfold Rabs in Hgt. destruct (Rcase_abs r); lra.
Qed.

Lemma basic_limitPosition_right (s : t) :
  laws A ->
  gt (cartPosition s) (Num 5) = true ->
  cartPosition (limitPosition A s) = Num 5
  /\ cartVelocity (limitPosition A s) = Num 0.
Proof.
  intros HA H. unfold limitPosition, maxCartPosition.
  destruct (cartPosition s) as [r | | |]; simpl in *; try discriminate.
  - destruct (Rgt_dec r 5) as [Hr | _]; [| discriminate].
    destruct (Rgt_dec (Rabs r) 5.0) as [_ | Hn].
    + cbn [cartPosition cartVelocity]. rewrite sign_pos by lra.
      rewrite (mul_one_l A HA). split; [f_equal; lra | reflexivity].
    + exfalso. apply Hn. rewrite Rabs_pos_eq; lra.
  - cbn [cartPosition cartVelocity]. rewrite (mul_one_l A HA).
    split; [f_equal; lra | reflexivity].
Qed.

Lemma basic_limitPosition_left (s : t) :
  laws A ->
  lt (cartPosition s) (Num (-5)) = true ->
  cartPosition (limitPosition A s) = Num (-5)
  /\ cartVelocity (limitPosition A s) = Num 0.
Proof.
  intros HA H. unfold limitPosition, maxCartPosition.
  destruct (cartPosition s) as [r | | |]; simpl in *; try discriminate.
  - destruct (Rgt_dec (-5) r) as [Hr | _]; [| discriminate].
    destruct (Rgt_dec (Rabs r) 5.0) as [_ | Hn].
    + cbn [cartPosition cartVelocity]. rewrite sign_neg by lra.
      rewrite (mul_minus_one_l A HA). split; [simpl; f_equal; lra | reflexivity].
    + exfalso. apply Hn. rewrite Rabs_left; lra.
  - cbn [cartPosition cartVelocity]. rewrite (mul_minus_one_l A HA).
    split; [simpl; f_equal; lra | reflexivity].
Qed.

Lemma basic_limitPosition_within (s : t) :
  laws A ->
  cartPosition s <> NaN -> within (-5) 5 (cartPosition (limitPosition A s)).
Proof.
  intros HA Hn.
  destruct (PendulumGuards.position_cases (cartPosition s)) as [E | [H | [H | H]]].
  - contradiction.
  - rewrite basic_limitPosition_inside; assumption.
  - destruct (basic_limitPosition_right s HA H) as [-> _]. simpl. lra.
  - destruct (basic_limitPosition_left s HA H) as [-> _]. simpl. lra.
Qed.

End Guards.

(** X11: in the basic variant too, with any arithmetic that obeys the
    laws, an [update] that returns leaves the position and velocity the
    position limit produced and an angle that is [NaN], exactly when the
    RK4 step made it [NaN], or in the closed interval from [- PI] to [PI];
    it returns at once when that angle is [NaN] or in range, and within
    [bound] iterations when the shifts make progress up to [bound].  A
    position the RK4 step made [NaN] stays [NaN]; any other ends within 5
    of the origin; a cart beyond the boundary is put on it with velocity
    0, and one within is left as integrated. *)
Theorem basic_update_limits (A : arithmetic) (fuel : nat) (s : t)
  (force dt : number) :
  laws A ->
  let integrated := integrate A s force dt in
  let after := afterPositionLimit A s force dt in
  (forall s',
      update A fuel s force dt = Some s' ->
      cartPosition s' = cartPosition after
      /\ cartVelocity s' = cartVelocity after
      /\ ((pendulumAngle integrated = NaN /\ pendulumAngle s' = NaN)
          \/ (pendulumAngle integrated <> NaN
              /\ within (- PI) PI (pendulumAngle s'))))
  /\ (pendulumAngle integrated = NaN
      \/ within (- PI) PI (pendulumAngle integrated) ->
      update A fuel s force dt = Some after)
  /\ (forall bound,
         progress bound A ->
         within (- bound) bound (pendulumAngle integrated) ->
         bound <= INR fuel ->
         exists s', update A fuel s force dt = Some s')
  /\ (cartPosition integrated = NaN -> after = integrated)
  /\ (cartPosition integrated <> NaN -> within (-5) 5 (cartPosition after))
  /\ (gt (cartPosition integrated) (Num 5) = true ->
      cartPosition after = Num 5 /\ cartVelocity after = Num 0)
  /\ (lt (cartPosition integrated) (Num (-5)) = true ->
      cartPosition after = Num (-5) /\ cartVelocity after = Num 0)
  /\ (within (-5) 5 (cartPosition integrated) -> after = integrated).
Proof.
  intros HA integrated after.
  assert (Ea : pendulumAngle after = pendulumAngle integrated).
  { unfold after, afterPositionLimit. apply basic_limitPosition_angle. }
  split; [| split; [| split; [| split; [| split; [| split; [| split]]]]]].
  - intros s' H. unfold update in H. fold after in H. rewrite Ea in H.
    destruct (JsPendulum.normalizeAngle A fuel (pendulumAngle integrated))
      as [angle |] eqn:En; [| discriminate].
    injection H as <-. cbn [cartPosition cartVelocity pendulumAngle].
    split; [reflexivity |]. split; [reflexivity |].
    apply (normalizeAngle_guard A fuel _ _ HA En).
  - intros H. unfold update. fold after. rewrite Ea.
    rewrite (normalizeAngle_at_once A fuel _ H), <- Ea.
    destruct after. reflexivity.
  - intros bound HP Hin Hfuel. unfold update. fold after. rewrite Ea.
    destruct (normalizeAngle_returns A bound fuel _ HP Hin Hfuel) as [y ->].
    eexists. reflexivity.
  - apply (basic_limitPosition_NaN A integrated).
  - apply (basic_limitPosition_within A integrated HA).
  - apply (basic_limitPosition_right A integrated HA).
  - apply (basic_limitPosition_left A integrated HA).
  - apply (basic_limitPosition_inside A integrated).
Qed.

(** X11 (witness): with exact arithmetic and a step of length zero, a cart
    placed at 6 with velocity 3 is put at 5 and stopped. *)
Lemma basic_update_limits_witness :
  update exact 0 (lift GuardCases.pastWall) (Num 0) (Num 0)
  = Some (afterPositionLimit exact (lift GuardCases.pastWall) (Num 0) (Num 0))
  /\ cartPosition (afterPositionLimit exact (lift GuardCases.pastWall)
                     (Num 0) (Num 0)) = Num 5
  /\ cartVelocity (afterPositionLimit exact (lift GuardCases.pastWall)
                     (Num 0) (Num 0)) = Num 0.
Proof.
  set (s := GuardCases.pastWall).
  pose proof (basic_update_limits exact 0 (lift s) (Num 0) (Num 0) exact_laws)
    as H.
  cbv zeta in H.
  assert (Ei : integrate exact (lift s) (Num 0) (Num 0) = lift s).
  { rewrite basic_integrate_exact by (unfold s, GuardCases.pastWall; simpl; lra).
    rewrite basic_integrate_zero_dt. reflexivity. }
  rewrite Ei in H.
  destruct H as [_ [Hret [_ [_ [_ [Hright _]]]]]].
  destruct Hright as [Hx Hv].
  { unfold s, GuardCases.pastWall. simpl. destruct (Rgt_dec 6 5); [reflexivity | lra]. }
  split; [| split; assumption].
  apply Hret. right. unfold s, GuardCases.pastWall. simpl. pose proof PI_RGT_0. lra.
Defined.

End BasicGuards.
